(** * spiped: connection lifecycle (lib/proto/proto_conn.c) and socket
    address utilities (libcperciva/util/sock_util.c)

    A shallow embedding of the two C files.  The C functions talk to the
    event loop, the networker, the handshake and pipe primitives, the
    allocator and the upstream death callback; here every such call is
    recorded, in program order, in a trace, and every call that hands back
    a pointer takes its outcome (a handle, or NULL) from an oracle that the
    theorems quantify over. *)

From Stdlib Require Import ZArith List Bool String Ascii Lia.
From Stdlib Require Import Strings.Byte.
From Stdlib Require Import Floats.PrimFloat.
Import ListNotations.
Open Scope Z_scope.

(** ** Pointers, addresses, events *)

(** A non-null pointer handed out by the environment. *)
Definition handle := N.

(** A C pointer: [None] is NULL. *)
Definition ptr := option handle.

Definition is_null (p : ptr) : bool :=
  match p with None => true | Some _ => false end.

(** [struct sock_addr] (sock_internal.h): address family, socket type, the
    raw [struct sockaddr] bytes and their count. *)
Record sock_addr := mk_sock_addr {
  ai_family : Z;
  ai_socktype : Z;
  name : list byte;
  namelen : Z
}.

(** Modelled from the spec: the PROTO_CONN_* reason codes of proto_conn.h
    handed to the death callback (CONNECT_FAILED, HANDSHAKE_FAILED, CLOSED,
    ERROR); only their identity matters. *)
Inductive reason :=
| PROTO_CONN_CLOSED
| PROTO_CONN_CONNECT_FAILED
| PROTO_CONN_HANDSHAKE_FAILED
| PROTO_CONN_ERROR.

(** The callbacks of proto_conn.c, as they are passed to the primitives. *)
Inductive callback_id :=
| CB_connect_done
| CB_connect_timeout
| CB_handshake_done
| CB_handshake_timeout
| CB_pipestatus.

(** The status variable a pipe is given ([&C->stat_f] or [&C->stat_r]). *)
Inductive stat_var := STAT_F | STAT_R.

(** What a [malloc]/[free] is for. *)
Inductive object :=
| OBJ_conn_state
| OBJ_sock_addr
| OBJ_name
| OBJ_buf
| OBJ_string.

Inductive sockopt := SO_KEEPALIVE | TCP_NODELAY.

(** One call out of the two files. *)
Inductive event :=
| Ev_malloc (what : object) (res : ptr)
| Ev_free (what : object)
| Ev_close (fd : Z)
| Ev_setsockopt (fd : Z) (opt : sockopt) (val : Z)
| Ev_events_timer_register_double (cb : callback_id) (timeo : float) (res : ptr)
| Ev_events_timer_cancel (h : ptr)
| Ev_network_connect_bind (sas : option (list sock_addr))
    (sa_b : option sock_addr) (cb : callback_id) (res : ptr)
| Ev_network_connect_cancel (h : ptr)
| Ev_proto_handshake (s decr nopfs requirepfs : Z) (K : ptr)
    (cb : callback_id) (res : ptr)
| Ev_proto_handshake_cancel (h : ptr)
| Ev_proto_pipe (rd wr decr : Z) (k : ptr) (sv : stat_var)
    (cb : callback_id) (res : ptr)
| Ev_proto_pipe_cancel (h : ptr)
| Ev_proto_crypt_free (k : ptr)
| Ev_sock_addr_freelist (sas : option (list sock_addr))
| Ev_callback_dead (cookie : Z) (why : reason) (rc : Z)
| Ev_warnp (msg : string).

(** ** The world and its monad *)

(** The environment: the calls made so far, oldest first; how many
    pointer-returning calls were made; and the outcome of the n-th such
    call. *)
Record world := mk_world {
  trace : list event;
  calls : nat;
  oracle : nat -> ptr
}.

(** A computation returns a value and a new world, or stops the process on
    a failed [assert]. *)
Inductive outcome (A : Type) :=
| Done (a : A) (w : world)
| Aborted (w : world).
Arguments Done {A} a w.
Arguments Aborted {A} w.

Definition M (A : Type) := world -> outcome A.

Definition ret {A} (a : A) : M A := fun w => Done a w.

Definition bind {A B} (m : M A) (k : A -> M B) : M B :=
  fun w => match m w with
           | Done a w' => k a w'
           | Aborted w' => Aborted w'
           end.

Declare Scope conn_scope.
Delimit Scope conn_scope with conn.
Notation "x <- m ;; k" := (bind m (fun x => k))
  (at level 61, m at next level, right associativity) : conn_scope.
Notation "m ;; k" := (bind m (fun _ => k))
  (at level 61, right associativity) : conn_scope.
Open Scope conn_scope.

Definition emit (e : event) : M unit :=
  fun w => Done tt (mk_world (trace w ++ [e]) (calls w) (oracle w)).

(** The outcome of the next pointer-returning call. *)
Definition fresh : M ptr :=
  fun w => Done (oracle w (calls w)) (mk_world (trace w) (S (calls w)) (oracle w)).

(** [assert(b)]. *)
Definition assert (b : bool) : M unit :=
  fun w => if b then Done tt w else Aborted w.

(** [if (p != NULL) f(p)]. *)
Definition if_nonnull (p : ptr) (f : ptr -> M unit) : M unit :=
  if is_null p then ret tt else f p.

(** ** The primitives called by the two files *)

Definition malloc (what : object) : M ptr :=
  p <- fresh ;; emit (Ev_malloc what p) ;; ret p.

Definition free (what : object) : M unit := emit (Ev_free what).

Definition close (fd : Z) : M unit := emit (Ev_close fd).

Definition setsockopt (fd : Z) (opt : sockopt) (val : Z) : M unit :=
  emit (Ev_setsockopt fd opt val).

Definition events_timer_register_double (cb : callback_id) (timeo : float) : M ptr :=
  h <- fresh ;; emit (Ev_events_timer_register_double cb timeo h) ;; ret h.

Definition events_timer_cancel (h : ptr) : M unit :=
  emit (Ev_events_timer_cancel h).

Definition network_connect_bind (sas : option (list sock_addr))
    (sa_b : option sock_addr) (cb : callback_id) : M ptr :=
  h <- fresh ;; emit (Ev_network_connect_bind sas sa_b cb h) ;; ret h.

Definition network_connect_cancel (h : ptr) : M unit :=
  emit (Ev_network_connect_cancel h).

Definition proto_handshake (s decr nopfs requirepfs : Z) (K : ptr)
    (cb : callback_id) : M ptr :=
  h <- fresh ;; emit (Ev_proto_handshake s decr nopfs requirepfs K cb h) ;; ret h.

Definition proto_handshake_cancel (h : ptr) : M unit :=
  emit (Ev_proto_handshake_cancel h).

Definition proto_pipe (rd wr decr : Z) (k : ptr) (sv : stat_var)
    (cb : callback_id) : M ptr :=
  h <- fresh ;; emit (Ev_proto_pipe rd wr decr k sv cb h) ;; ret h.

Definition proto_pipe_cancel (h : ptr) : M unit :=
  emit (Ev_proto_pipe_cancel h).

Definition proto_crypt_free (k : ptr) : M unit :=
  emit (Ev_proto_crypt_free k).

Definition sock_addr_freelist (sas : option (list sock_addr)) : M unit :=
  emit (Ev_sock_addr_freelist sas).

Definition warnp (msg : string) : M unit := emit (Ev_warnp msg).

(** ** proto_conn.c: the connection state *)

(** [struct conn_state].  [callback_dead] is the upstream's function; the
    keys, the secret and the pending-operation cookies are pointers the
    file never looks inside. *)
Record conn_state := mk_conn_state {
  callback_dead : Z -> reason -> Z;
  cookie : Z;
  sas : option (list sock_addr);
  decr : Z;
  nopfs : Z;
  requirepfs : Z;
  nokeepalive : Z;
  K : ptr;
  timeo : float;
  s : Z;
  t : Z;
  connect_cookie : ptr;
  connect_timeout_cookie : ptr;
  handshake_cookie : ptr;
  handshake_timeout_cookie : ptr;
  k_f : ptr;
  k_r : ptr;
  pipe_f : ptr;
  pipe_r : ptr;
  stat_f : Z;
  stat_r : Z
}.

(** Field assignments [C->field = v]. *)
Definition set_sas (C : conn_state) (v : option (list sock_addr)) : conn_state :=
  mk_conn_state (callback_dead C) (cookie C) v (decr C) (nopfs C)
    (requirepfs C) (nokeepalive C) (K C) (timeo C) (s C) (t C)
    (connect_cookie C) (connect_timeout_cookie C) (handshake_cookie C)
    (handshake_timeout_cookie C) (k_f C) (k_r C) (pipe_f C) (pipe_r C)
    (stat_f C) (stat_r C).

Definition set_t (C : conn_state) (v : Z) : conn_state :=
  mk_conn_state (callback_dead C) (cookie C) (sas C) (decr C) (nopfs C)
    (requirepfs C) (nokeepalive C) (K C) (timeo C) (s C) v
    (connect_cookie C) (connect_timeout_cookie C) (handshake_cookie C)
    (handshake_timeout_cookie C) (k_f C) (k_r C) (pipe_f C) (pipe_r C)
    (stat_f C) (stat_r C).

Definition set_connect_cookie (C : conn_state) (v : ptr) : conn_state :=
  mk_conn_state (callback_dead C) (cookie C) (sas C) (decr C) (nopfs C)
    (requirepfs C) (nokeepalive C) (K C) (timeo C) (s C) (t C)
    v (connect_timeout_cookie C) (handshake_cookie C)
    (handshake_timeout_cookie C) (k_f C) (k_r C) (pipe_f C) (pipe_r C)
    (stat_f C) (stat_r C).

Definition set_connect_timeout_cookie (C : conn_state) (v : ptr) : conn_state :=
  mk_conn_state (callback_dead C) (cookie C) (sas C) (decr C) (nopfs C)
    (requirepfs C) (nokeepalive C) (K C) (timeo C) (s C) (t C)
    (connect_cookie C) v (handshake_cookie C)
    (handshake_timeout_cookie C) (k_f C) (k_r C) (pipe_f C) (pipe_r C)
    (stat_f C) (stat_r C).

Definition set_handshake_cookie (C : conn_state) (v : ptr) : conn_state :=
  mk_conn_state (callback_dead C) (cookie C) (sas C) (decr C) (nopfs C)
    (requirepfs C) (nokeepalive C) (K C) (timeo C) (s C) (t C)
    (connect_cookie C) (connect_timeout_cookie C) v
    (handshake_timeout_cookie C) (k_f C) (k_r C) (pipe_f C) (pipe_r C)
    (stat_f C) (stat_r C).

Definition set_handshake_timeout_cookie (C : conn_state) (v : ptr) : conn_state :=
  mk_conn_state (callback_dead C) (cookie C) (sas C) (decr C) (nopfs C)
    (requirepfs C) (nokeepalive C) (K C) (timeo C) (s C) (t C)
    (connect_cookie C) (connect_timeout_cookie C) (handshake_cookie C)
    v (k_f C) (k_r C) (pipe_f C) (pipe_r C)
    (stat_f C) (stat_r C).

Definition set_k_f (C : conn_state) (v : ptr) : conn_state :=
  mk_conn_state (callback_dead C) (cookie C) (sas C) (decr C) (nopfs C)
    (requirepfs C) (nokeepalive C) (K C) (timeo C) (s C) (t C)
    (connect_cookie C) (connect_timeout_cookie C) (handshake_cookie C)
    (handshake_timeout_cookie C) v (k_r C) (pipe_f C) (pipe_r C)
    (stat_f C) (stat_r C).

Definition set_k_r (C : conn_state) (v : ptr) : conn_state :=
  mk_conn_state (callback_dead C) (cookie C) (sas C) (decr C) (nopfs C)
    (requirepfs C) (nokeepalive C) (K C) (timeo C) (s C) (t C)
    (connect_cookie C) (connect_timeout_cookie C) (handshake_cookie C)
    (handshake_timeout_cookie C) (k_f C) v (pipe_f C) (pipe_r C)
    (stat_f C) (stat_r C).

Definition set_pipe_f (C : conn_state) (v : ptr) : conn_state :=
  mk_conn_state (callback_dead C) (cookie C) (sas C) (decr C) (nopfs C)
    (requirepfs C) (nokeepalive C) (K C) (timeo C) (s C) (t C)
    (connect_cookie C) (connect_timeout_cookie C) (handshake_cookie C)
    (handshake_timeout_cookie C) (k_f C) (k_r C) v (pipe_r C)
    (stat_f C) (stat_r C).

Definition set_pipe_r (C : conn_state) (v : ptr) : conn_state :=
  mk_conn_state (callback_dead C) (cookie C) (sas C) (decr C) (nopfs C)
    (requirepfs C) (nokeepalive C) (K C) (timeo C) (s C) (t C)
    (connect_cookie C) (connect_timeout_cookie C) (handshake_cookie C)
    (handshake_timeout_cookie C) (k_f C) (k_r C) (pipe_f C) v
    (stat_f C) (stat_r C).

Definition set_stat_f (C : conn_state) (v : Z) : conn_state :=
  mk_conn_state (callback_dead C) (cookie C) (sas C) (decr C) (nopfs C)
    (requirepfs C) (nokeepalive C) (K C) (timeo C) (s C) (t C)
    (connect_cookie C) (connect_timeout_cookie C) (handshake_cookie C)
    (handshake_timeout_cookie C) (k_f C) (k_r C) (pipe_f C) (pipe_r C)
    v (stat_r C).

Definition set_stat_r (C : conn_state) (v : Z) : conn_state :=
  mk_conn_state (callback_dead C) (cookie C) (sas C) (decr C) (nopfs C)
    (requirepfs C) (nokeepalive C) (K C) (timeo C) (s C) (t C)
    (connect_cookie C) (connect_timeout_cookie C) (handshake_cookie C)
    (handshake_timeout_cookie C) (k_f C) (k_r C) (pipe_f C) (pipe_r C)
    (stat_f C) v.

(** ** proto_conn.c: the functions *)

(** [starthandshake(C, s, decr)]: the return code and the state as the
    call leaves it. *)
Definition starthandshake (C : conn_state) (sock : Z) (dec : Z)
    : M (Z * conn_state) :=
  (* Start the handshake timer. *)
  th <- events_timer_register_double CB_handshake_timeout (timeo C) ;;
  let C := set_handshake_timeout_cookie C th in
  if is_null th then ret (-1, C)                          (* err0 *)
  else
    (* Start the handshake. *)
    hh <- proto_handshake sock dec (nopfs C) (requirepfs C) (K C)
            CB_handshake_done ;;
    let C := set_handshake_cookie C hh in
    if is_null hh then
      (* err1 *)
      events_timer_cancel (handshake_timeout_cookie C) ;;
      ret (-1, set_handshake_timeout_cookie C None)
    else ret (0, C).

(** [launchpipes(C)]. *)
Definition launchpipes (C : conn_state) : M (Z * conn_state) :=
  let on := if nokeepalive C =? 0 then 1 else 0 in
  let one := 1 in
  setsockopt (s C) SO_KEEPALIVE on ;;
  setsockopt (t C) SO_KEEPALIVE on ;;
  setsockopt (s C) TCP_NODELAY one ;;
  setsockopt (t C) TCP_NODELAY one ;;
  (* Create two pipes. *)
  pf <- proto_pipe (s C) (t C) (decr C) (k_f C) STAT_F CB_pipestatus ;;
  let C := set_pipe_f C pf in
  if is_null pf then ret (-1, C)
  else
    pr <- proto_pipe (t C) (s C) (if decr C =? 0 then 1 else 0) (k_r C)
            STAT_R CB_pipestatus ;;
    let C := set_pipe_r C pr in
    if is_null pr then ret (-1, C)
    else ret (0, C).

(** [proto_conn_drop(conn_cookie, reason)]: the state is freed, the
    upstream's return code comes back. *)
Definition proto_conn_drop (C : conn_state) (why : reason) : M Z :=
  (* Close the incoming connection. *)
  close (s C) ;;
  (* Close the outgoing connection if it is open. *)
  (if t C =? -1 then ret tt else close (t C)) ;;
  (* Stop connecting if a connection is in progress. *)
  if_nonnull (connect_cookie C) network_connect_cancel ;;
  (* Free the target addresses if we haven't already done so. *)
  sock_addr_freelist (sas C) ;;
  (* Stop handshaking if a handshake is in progress. *)
  if_nonnull (handshake_cookie C) proto_handshake_cancel ;;
  (* Kill timeouts if they are pending. *)
  if_nonnull (connect_timeout_cookie C) events_timer_cancel ;;
  if_nonnull (handshake_timeout_cookie C) events_timer_cancel ;;
  (* Free protocol keys. *)
  proto_crypt_free (k_f C) ;;
  proto_crypt_free (k_r C) ;;
  (* Shut down pipes. *)
  if_nonnull (pipe_f C) proto_pipe_cancel ;;
  if_nonnull (pipe_r C) proto_pipe_cancel ;;
  (* Notify the upstream that we've dropped a connection. *)
  let rc := callback_dead C (cookie C) why in
  emit (Ev_callback_dead (cookie C) why rc) ;;
  (* Free the connection cookie. *)
  free OBJ_conn_state ;;
  ret rc.

(** The arguments of [proto_conn_create]. *)
Record create_args := mk_create_args {
  a_s : Z;
  a_sas : option (list sock_addr);
  a_sa_b : option sock_addr;
  a_decr : Z;
  a_nopfs : Z;
  a_requirepfs : Z;
  a_nokeepalive : Z;
  a_K : ptr;
  a_timeo : float;
  a_callback_dead : Z -> reason -> Z;
  a_cookie : Z
}.

(** [proto_conn_create(...)]: the new state, or NULL. *)
Definition proto_conn_create (a : create_args) : M (option conn_state) :=
  (* Bake a cookie for this connection. *)
  p <- malloc OBJ_conn_state ;;
  if is_null p then ret None                               (* err0 *)
  else
    let C := mk_conn_state (a_callback_dead a) (a_cookie a) (a_sas a)
               (a_decr a) (a_nopfs a) (a_requirepfs a) (a_nokeepalive a)
               (a_K a) (a_timeo a) (a_s a) (-1) None None None None
               None None None None 1 1 in
    (* Start the connect timer. *)
    ct <- events_timer_register_double CB_connect_timeout (timeo C) ;;
    let C := set_connect_timeout_cookie C ct in
    if is_null ct then
      free OBJ_conn_state ;; ret None                      (* err1 *)
    else
      (* Connect to target. *)
      cc <- network_connect_bind (sas C) (a_sa_b a) CB_connect_done ;;
      let C := set_connect_cookie C cc in
      if is_null cc then
        (* err2 *)
        events_timer_cancel (connect_timeout_cookie C) ;;
        free OBJ_conn_state ;; ret None
      else
        (* If we're decrypting, start the handshake. *)
        r <- (if decr C =? 0 then ret (0, C)
              else starthandshake C (s C) (decr C)) ;;
        let '(rc, C) := r in
        if rc =? 0 then ret (Some C)
        else
          (* err3 *)
          network_connect_cancel (connect_cookie C) ;;
          events_timer_cancel (connect_timeout_cookie C) ;;
          free OBJ_conn_state ;; ret None.

(** The callbacks return their code and the state that is left: [None]
    once [proto_conn_drop] has freed it. *)
Definition dropped (C : conn_state) (why : reason) : M (Z * option conn_state) :=
  rc <- proto_conn_drop C why ;; ret (rc, None).

(** [callback_connect_done(cookie, t)]. *)
Definition callback_connect_done (C : conn_state) (fd : Z)
    : M (Z * option conn_state) :=
  (* This connection attempt is no longer pending. *)
  let C := set_connect_cookie C None in
  (* Don't need the target address any more. *)
  sock_addr_freelist (sas C) ;;
  let C := set_sas C None in
  (* We beat the clock. *)
  events_timer_cancel (connect_timeout_cookie C) ;;
  let C := set_connect_timeout_cookie C None in
  (* Did we manage to connect? *)
  let C := set_t C fd in
  if t C =? -1 then dropped C PROTO_CONN_CONNECT_FAILED
  else
    (* If we're encrypting, start the handshake. *)
    r <- (if decr C =? 0 then starthandshake C (t C) (decr C)
          else ret (0, C)) ;;
    let '(rc, C) := r in
    if negb (rc =? 0) then
      (* err1 *)
      proto_conn_drop C PROTO_CONN_ERROR ;; ret (-1, None)
    else
      (* If the handshake already finished, start shuttling data. *)
      if negb (t C =? -1) && negb (is_null (k_f C)) && negb (is_null (k_r C))
      then
        r <- launchpipes C ;;
        let '(rc, C) := r in
        if negb (rc =? 0) then
          (* err1 *)
          proto_conn_drop C PROTO_CONN_ERROR ;; ret (-1, None)
        else ret (0, Some C)
      else ret (0, Some C).

(** [callback_connect_timeout(cookie)]. *)
Definition callback_connect_timeout (C : conn_state)
    : M (Z * option conn_state) :=
  (* This timeout is no longer pending. *)
  let C := set_connect_timeout_cookie C None in
  (* Drop the connection. *)
  dropped C PROTO_CONN_ERROR.

(** [callback_handshake_done(cookie, f, r)]. *)
Definition callback_handshake_done (C : conn_state) (f r : ptr)
    : M (Z * option conn_state) :=
  (* The handshake is no longer in progress. *)
  let C := set_handshake_cookie C None in
  (* We beat the clock. *)
  events_timer_cancel (handshake_timeout_cookie C) ;;
  let C := set_handshake_timeout_cookie C None in
  (* If the protocol handshake failed, drop the connection. *)
  if is_null f && is_null r then dropped C PROTO_CONN_HANDSHAKE_FAILED
  else
    (* We should have two keys. *)
    assert (negb (is_null f)) ;;
    assert (negb (is_null r)) ;;
    (* Record the keys so we can free them later. *)
    let C := set_k_f C f in
    let C := set_k_r C r in
    (* If we already connected to the target, start shuttling data. *)
    if negb (t C =? -1) && negb (is_null (k_f C)) && negb (is_null (k_r C))
    then
      r <- launchpipes C ;;
      let '(rc, C) := r in
      if negb (rc =? 0) then
        (* err1 *)
        proto_conn_drop C PROTO_CONN_ERROR ;; ret (-1, None)
      else ret (0, Some C)
    else ret (0, Some C).

(** [callback_handshake_timeout(cookie)]. *)
Definition callback_handshake_timeout (C : conn_state)
    : M (Z * option conn_state) :=
  (* This timeout is no longer pending. *)
  let C := set_handshake_timeout_cookie C None in
  (* Drop the connection. *)
  dropped C PROTO_CONN_ERROR.

(** [callback_pipestatus(cookie)]. *)
Definition callback_pipestatus (C : conn_state) : M (Z * option conn_state) :=
  (* If we have an error in either direction, kill the connection. *)
  if (stat_f C =? -1) || (stat_r C =? -1) then dropped C PROTO_CONN_ERROR
  (* If both directions have been shut down, kill the connection. *)
  else if (stat_f C =? 0) && (stat_r C =? 0) then dropped C PROTO_CONN_CLOSED
  (* Nothing to do. *)
  else ret (0, Some C).

(** ** sock_util.c: the host's data representation *)

(** The serialization is "machine and operating system dependent": the
    widths of [int], [socklen_t] and [size_t] in bytes and the byte order
    are the host's, and are taken as parameters.  [int] is two's
    complement, [socklen_t] and [size_t] are unsigned. *)
Record abi := mk_abi {
  sizeof_int : nat;
  sizeof_socklen_t : nat;
  sizeof_size_t : nat;
  big_endian : bool
}.

Definition byte_of_Z (x : Z) : byte :=
  match Byte.of_N (Z.to_N (x mod 256)) with
  | Some b => b
  | None => x00
  end.

Definition Z_of_byte (b : byte) : Z := Z.of_N (Byte.to_N b).

(** The [n] low-order bytes of [x], least significant first. *)
Fixpoint le_bytes (n : nat) (x : Z) : list byte :=
  match n with
  | O => []
  | S k => byte_of_Z x :: le_bytes k (x / 256)
  end.

Fixpoint le_value (l : list byte) : Z :=
  match l with
  | [] => 0
  | b :: r => Z_of_byte b + 256 * le_value r
  end.

(** The object representation of an [n]-byte integer, and the unsigned
    value of such bytes. *)
Definition obj_bytes (h : abi) (n : nat) (x : Z) : list byte :=
  if big_endian h then rev (le_bytes n x) else le_bytes n x.

Definition obj_value (h : abi) (l : list byte) : Z :=
  le_value (if big_endian h then rev l else l).

Definition modulus (n : nat) : Z := 2 ^ (8 * Z.of_nat n).

(** The value an unsigned bit pattern has as a two's complement integer
    of [n] bytes. *)
Definition signed (n : nat) (u : Z) : Z :=
  if u <? modulus n / 2 then u else u - modulus n.

(** [memcpy(&x, buf, sizeof(int))] for an [int x], and the same for a
    [socklen_t]. *)
Definition load_int (h : abi) (buf : list byte) : Z :=
  signed (sizeof_int h) (obj_value h (firstn (sizeof_int h) buf)).

Definition load_socklen_t (h : abi) (buf : list byte) : Z :=
  obj_value h (firstn (sizeof_socklen_t h) buf).

(** [size_t] arithmetic wraps. *)
Definition size_t_wrap (h : abi) (x : Z) : Z := x mod modulus (sizeof_size_t h).

(** [2 * sizeof(int) + sizeof(socklen_t)]. *)
Definition header_size (h : abi) : Z :=
  size_t_wrap h
    (size_t_wrap h (2 * Z.of_nat (sizeof_int h)) + Z.of_nat (sizeof_socklen_t h)).

(** [memcmp(a, b, n)]: zero iff the first [n] bytes agree. *)
Fixpoint memcmp (a b : list byte) (n : nat) : Z :=
  match n with
  | O => 0
  | S k =>
    match a, b with
    | x :: a', y :: b' =>
      if Byte.eqb x y then memcmp a' b' k else Z_of_byte x - Z_of_byte y
    | _ :: _, [] => 1
    | [], _ :: _ => -1
    | [], [] => 0
    end
  end.

(** ** sock_util.c: the functions *)

(** [sock_addr_cmp(sa1, sa2)]. *)
Definition sock_addr_cmp (sa1 sa2 : sock_addr) : Z :=
  (* Family, socket type, and name length must match. *)
  if negb (ai_family sa1 =? ai_family sa2)
     || negb (ai_socktype sa1 =? ai_socktype sa2)
     || negb (namelen sa1 =? namelen sa2)
  then 1
  (* The required length of the sockaddr must match. *)
  else if negb (memcmp (name sa1) (name sa2) (Z.to_nat (namelen sa1)) =? 0)
  then 1
  (* Everything matched. *)
  else 0.

(** [sock_addr_serialize(sa, buf, buflen)]: the return code, the buffer
    left in [*buf] (NULL when the allocation failed) and [*buflen].  The C
    code copies [namelen] bytes from [name] into a buffer of [*buflen]
    bytes: [name] must hold that many and the sum must not wrap (see
    [valid_sock_addr]); outside of that the C program has no defined
    behaviour and the model says nothing about it. *)
Definition sock_addr_serialize (h : abi) (sa : sock_addr)
    : M (Z * option (list byte) * Z) :=
  (* Compute buffer length and allocate buffer. *)
  let buflen := size_t_wrap h (header_size h + size_t_wrap h (namelen sa)) in
  p <- malloc OBJ_buf ;;
  if is_null p then ret (-1, None, buflen)                 (* err0 *)
  else
    (* Copy in data. *)
    let buf := obj_bytes h (sizeof_int h) (ai_family sa)
               ++ obj_bytes h (sizeof_int h) (ai_socktype sa)
               ++ obj_bytes h (sizeof_socklen_t h) (namelen sa)
               ++ firstn (Z.to_nat (namelen sa)) (name sa) in
    ret (0, Some buf, buflen).

(** [sock_addr_deserialize(buf, buflen)], where [buf] holds [buflen]
    bytes. *)
Definition sock_addr_deserialize (h : abi) (buf : list byte)
    : M (option sock_addr) :=
  let buflen := Z.of_nat (List.length buf) in
  (* Sanity check. *)
  if buflen <? header_size h then ret None                 (* err0 *)
  else
    (* Allocate a structure and copy in fields. *)
    p <- malloc OBJ_sock_addr ;;
    if is_null p then ret None                             (* err0 *)
    else
      let family := load_int h buf in
      let buf := skipn (sizeof_int h) buf in
      let socktype := load_int h buf in
      let buf := skipn (sizeof_int h) buf in
      let len := load_socklen_t h buf in
      let buf := skipn (sizeof_socklen_t h) buf in
      (* Allocate and copy the sockaddr. *)
      if negb (buflen =? size_t_wrap h (header_size h + size_t_wrap h len))
      then free OBJ_sock_addr ;; ret None                  (* err1 *)
      else
        q <- malloc OBJ_name ;;
        if is_null q then free OBJ_sock_addr ;; ret None   (* err1 *)
        else
          ret (Some (mk_sock_addr family socktype
                       (firstn (Z.to_nat len) buf) len)).

(** [strchr(s, ch)] and [strrchr(s, ch)]: the offset of the first and of
    the last [ch] in [s], or NULL. *)
Fixpoint strchr (str : string) (ch : ascii) : option nat :=
  match str with
  | EmptyString => None
  | String x r =>
    if Ascii.eqb x ch then Some O else option_map S (strchr r ch)
  end.

Fixpoint strrchr (str : string) (ch : ascii) : option nat :=
  match str with
  | EmptyString => None
  | String x r =>
    match strrchr r ch with
    | Some i => Some (S i)
    | None => if Ascii.eqb x ch then Some O else None
    end
  end.

Definition is_none {A} (o : option A) : bool :=
  match o with None => true | Some _ => false end.

(** Pointer equality of two results of searching the same string. *)
Definition ptr_eqb (a b : option nat) : bool :=
  match a, b with
  | Some i, Some j => Nat.eqb i j
  | None, None => true
  | _, _ => false
  end.

(** [strdup(s)]: a copy, or NULL. *)
Definition strdup (str : string) : M (option string) :=
  p <- malloc OBJ_string ;;
  ret (if is_null p then None else Some str).

(** [asprintf(&out, fmt, ...)] with the text the format expands to: the
    new string, or [None] when it returns -1. *)
Definition asprintf (text : string) : M (option string) :=
  p <- malloc OBJ_string ;;
  ret (if is_null p then None else Some text).

(** [s[i]], for [i] up to the length of [s]: [None] is the terminator. *)
Definition char_is (str : string) (i : nat) (ch : ascii) : bool :=
  match String.get i str with
  | Some x => Ascii.eqb x ch
  | None => false
  end.

Definition at_end (str : string) (i : nat) : bool :=
  match String.get i str with
  | Some _ => false
  | None => true
  end.

(** [sock_addr_ensure_port(addr)]. *)
Definition sock_addr_ensure_port (addr : string) : M (option string) :=
  (* Get info about $addr. *)
  let a := strchr addr ":" in
  let b := strrchr addr ":" in
  let c := strrchr addr "]" in
  (* Figure out what type of address $addr is. *)
  if char_is addr 0 "/" then
    (* If the address starts with '/', it's a Unix domain socket. *)
    strdup addr
  else if is_none a then
    (* If there is no ':', it's an ipv4 addr that needs a ":0". *)
    r <- asprintf (addr ++ ":0")%string ;;
    match r with
    | None => warnp "asprintf" ;; ret None                   (* err0 *)
    | Some bind_addr => ret (Some bind_addr)
    end
  else if ptr_eqb a b then
    (* A single ':': an ipv4 addr which already contains a port. *)
    strdup addr
  else
    (* If there are two different ':', it's ipv6 address. *)
    match c with
    | None =>
      (* If there is no ']', we need to add "[]" and ":0". *)
      r <- asprintf ("[" ++ addr ++ "]:0")%string ;;
      match r with
      | None => warnp "asprintf" ;; ret None                 (* err0 *)
      | Some bind_addr => ret (Some bind_addr)
      end
    | Some ic =>
      if at_end addr (S ic) then
        (* If there is nothing after ']', we need to add ":0". *)
        r <- asprintf (addr ++ ":0")%string ;;
        match r with
        | None => warnp "asprintf" ;; ret None               (* err0 *)
        | Some bind_addr => ret (Some bind_addr)
        end
      else
        (* Otherwise, an ipv6 address which already has a port. *)
        strdup addr
    end.

(** What [sock_addr_dup] copies: the three fields, and [namelen] bytes of
    the name. *)
Definition copied (sa : sock_addr) : sock_addr :=
  mk_sock_addr (ai_family sa) (ai_socktype sa)
    (firstn (Z.to_nat (namelen sa)) (name sa)) (namelen sa).

(** [sock_addr_dup(sa)]: the copy, or NULL.  As for [sock_addr_serialize],
    [name] must hold [namelen] bytes. *)
Definition sock_addr_dup (sa : sock_addr) : M (option sock_addr) :=
  (* Allocate a struct sock_addr and copy fields. *)
  p <- malloc OBJ_sock_addr ;;
  if is_null p then ret None                               (* err0 *)
  else
    (* Allocate and copy the sockaddr. *)
    q <- malloc OBJ_name ;;
    if is_null q then free OBJ_sock_addr ;; ret None       (* err1 *)
    else ret (Some (copied sa)).

(** The second loop of [sock_addr_duplist], with [sas] left to duplicate
    and [sas2] filled so far: the finished list, or at err1 the part that
    was filled (the failed [sock_addr_dup] has stored the NULL that ends
    it). *)
Fixpoint duplist_loop (sas sas2 : list sock_addr)
    : M (list sock_addr + list sock_addr) :=
  match sas with
  | [] => ret (inl sas2)
  | sa :: rest =>
    r <- sock_addr_dup sa ;;
    match r with
    | None => ret (inr sas2)                               (* err1 *)
    | Some sa2 => duplist_loop rest (sas2 ++ [sa2])
    end
  end.

(** [sock_addr_duplist(sas)] for a NULL-terminated list [sas]: the new
    list, or NULL.  The array of pointers is one allocated buffer. *)
Definition sock_addr_duplist (sas : list sock_addr)
    : M (option (list sock_addr)) :=
  (* Allocate the list to hold addresses plus a NULL terminator. *)
  p <- malloc OBJ_buf ;;
  if is_null p then ret None                               (* err0 *)
  else
    (* Duplicate addresses and NULL-terminate. *)
    r <- duplist_loop sas [] ;;
    match r with
    | inl sas2 => ret (Some sas2)
    | inr part => sock_addr_freelist (Some part) ;; ret None   (* err1 *)
    end.

(** ** The event loop around one connection *)

(** Modelled from the spec: the event loop, the networker and the handshake
    and pipe primitives are not part of the two files.  By their contract a
    completion or a timer fires only while its handle is pending (non-null
    in the state), a pipe reports only while it exists, and a pipe writes
    its status variable before it invokes the status callback. *)
Inductive loop_event :=
| L_connect_done (fd : Z)
| L_connect_timeout
| L_handshake_done (f r : ptr)
| L_handshake_timeout
| L_pipe_status (sv : stat_var) (st : Z).

(** Modelled from the spec: when the event loop (not part of the two
    files) may invoke a callback of this connection: only while the handle
    of its operation is pending. *)
Definition enabled (e : loop_event) (C : conn_state) : bool :=
  match e with
  | L_connect_done _ => negb (is_null (connect_cookie C))
  | L_connect_timeout => negb (is_null (connect_timeout_cookie C))
  | L_handshake_done _ _ => negb (is_null (handshake_cookie C))
  | L_handshake_timeout => negb (is_null (handshake_timeout_cookie C))
  | L_pipe_status STAT_F _ => negb (is_null (pipe_f C))
  | L_pipe_status STAT_R _ => negb (is_null (pipe_r C))
  end.

Definition dispatch (e : loop_event) (C : conn_state)
    : M (Z * option conn_state) :=
  match e with
  | L_connect_done fd => callback_connect_done C fd
  | L_connect_timeout => callback_connect_timeout C
  | L_handshake_done f r => callback_handshake_done C f r
  | L_handshake_timeout => callback_handshake_timeout C
  | L_pipe_status STAT_F st => callback_pipestatus (set_stat_f C st)
  | L_pipe_status STAT_R st => callback_pipestatus (set_stat_r C st)
  end.

(** A connection between two turns of the loop: alive with its state,
    dropped (the state is freed), or the process has stopped on an
    assertion. *)
Inductive config :=
| Live (C : conn_state) (w : world)
| Dead (w : world)
| Crashed (w : world).

Definition settle (o : outcome (Z * option conn_state)) : config :=
  match o with
  | Done (_, Some C) w => Live C w
  | Done (_, None) w => Dead w
  | Aborted w => Crashed w
  end.

Definition world_of (c : config) : world :=
  match c with Live _ w => w | Dead w => w | Crashed w => w end.

(** Dispatch a sequence of loop events; [None] when one of them cannot
    fire. *)
Fixpoint play (evs : list loop_event) (c : config) : option config :=
  match evs with
  | [] => Some c
  | e :: rest =>
    match c with
    | Live C w =>
      if enabled e C then play rest (settle (dispatch e C w)) else None
    | _ => None
    end
  end.

(** A successful [proto_conn_create] followed by loop events. *)
Definition lifecycle (a : create_args) (w0 : world) (evs : list loop_event)
    : option config :=
  match proto_conn_create a w0 with
  | Done (Some C) w => play evs (Live C w)
  | _ => None
  end.

(** ** Reading traces *)

(** The world after a computation, whichever way it ended. *)
Definition after {A} (o : outcome A) : world :=
  match o with Done _ w => w | Aborted w => w end.

(** The world with further events recorded. *)
Definition push (w : world) (evs : list event) : world :=
  mk_world (trace w ++ evs) (calls w) (oracle w).

(** Pipe launches: every [launchpipes] creates the forward pipe first. *)
Definition is_launch (e : event) : bool :=
  match e with
  | Ev_proto_pipe _ _ _ _ STAT_F _ _ => true
  | _ => false
  end.

Definition launches (tr : list event) : nat := List.length (filter is_launch tr).

(** Handshake starts: every [starthandshake] registers the handshake timer
    first; the sockets are those handed to [proto_handshake]. *)
Definition is_handshake_start (e : event) : bool :=
  match e with
  | Ev_events_timer_register_double CB_handshake_timeout _ _ => true
  | _ => false
  end.

Definition handshake_starts (tr : list event) : nat :=
  List.length (filter is_handshake_start tr).

Definition handshake_socket (e : event) : list Z :=
  match e with
  | Ev_proto_handshake sock _ _ _ _ _ _ => [sock]
  | _ => []
  end.

Definition handshake_sockets (tr : list event) : list Z :=
  flat_map handshake_socket tr.

(** Invocations of the death callback, and releases of an address list. *)
Definition death (e : event) : list reason :=
  match e with
  | Ev_callback_dead _ why _ => [why]
  | _ => []
  end.

Definition deaths (tr : list event) : list reason := flat_map death tr.

Definition is_freelist (e : event) : bool :=
  match e with
  | Ev_sock_addr_freelist _ => true
  | _ => false
  end.

(** Pending operations: what kind, and which handle. *)
Inductive op_kind := OP_timer | OP_connect | OP_handshake | OP_pipe.

Definition registration (e : event) : list (op_kind * handle) :=
  match e with
  | Ev_events_timer_register_double _ _ (Some h) => [(OP_timer, h)]
  | Ev_network_connect_bind _ _ _ (Some h) => [(OP_connect, h)]
  | Ev_proto_handshake _ _ _ _ _ _ (Some h) => [(OP_handshake, h)]
  | Ev_proto_pipe _ _ _ _ _ _ (Some h) => [(OP_pipe, h)]
  | _ => []
  end.

Definition cancellation (e : event) : list (op_kind * ptr) :=
  match e with
  | Ev_events_timer_cancel p => [(OP_timer, p)]
  | Ev_network_connect_cancel p => [(OP_connect, p)]
  | Ev_proto_handshake_cancel p => [(OP_handshake, p)]
  | Ev_proto_pipe_cancel p => [(OP_pipe, p)]
  | _ => []
  end.

Definition registrations (tr : list event) : list (op_kind * handle) :=
  flat_map registration tr.

Definition cancellations (tr : list event) : list (op_kind * ptr) :=
  flat_map cancellation tr.

(** ** The teardown order, in the words of the specification *)

(** One event if the resource is present, none otherwise. *)
Definition when_present (p : ptr) (e : ptr -> event) : list event :=
  match p with Some _ => [e p] | None => [] end.

(** Steps 1 to 10 of drop: close [s]; close [t] unless it is -1; cancel
    the dial if in flight; release the address list; cancel the handshake
    if in flight; cancel the dial timer, then the handshake timer, if
    registered; release both keys; cancel each pipe if launched; invoke
    the death callback; free the state. *)
Definition teardown (C : conn_state) (why : reason) : list event :=
  [Ev_close (s C)]
  ++ (if t C =? -1 then [] else [Ev_close (t C)])
  ++ when_present (connect_cookie C) Ev_network_connect_cancel
  ++ [Ev_sock_addr_freelist (sas C)]
  ++ when_present (handshake_cookie C) Ev_proto_handshake_cancel
  ++ when_present (connect_timeout_cookie C) Ev_events_timer_cancel
  ++ when_present (handshake_timeout_cookie C) Ev_events_timer_cancel
  ++ [Ev_proto_crypt_free (k_f C); Ev_proto_crypt_free (k_r C)]
  ++ when_present (pipe_f C) Ev_proto_pipe_cancel
  ++ when_present (pipe_r C) Ev_proto_pipe_cancel
  ++ [Ev_callback_dead (cookie C) why (callback_dead C (cookie C) why);
      Ev_free OBJ_conn_state].

(** The launch condition, as the specification writes it:
    [t != -1 /\ k_f != null /\ k_r != null]. *)
Definition pipes_ready (C : conn_state) : bool :=
  negb (t C =? -1) && negb (is_null (k_f C)) && negb (is_null (k_r C)).

(** The status policy, as the specification's table: what one invocation
    of the status callback does for a pair of statuses. *)
Inductive status_action := Drop_with (why : reason) | Noop.

Definition status_policy (sf sr : Z) : status_action :=
  match sf, sr with
  | -1, _ => Drop_with PROTO_CONN_ERROR
  | _, -1 => Drop_with PROTO_CONN_ERROR
  | 0, 0 => Drop_with PROTO_CONN_CLOSED
  | _, _ => Noop
  end.

(** Setup failures of [proto_conn_create], read off the oracle: after the
    state is allocated, the dial timer, the dial and (when decrypting) the
    handshake timer and the handshake are registered by the next four
    pointer-returning calls; a setup failure is one of them returning
    NULL. *)
Definition setup_failure (a : create_args) (w0 : world) : bool :=
  let n := calls w0 in
  is_null (oracle w0 (1 + n))
  || is_null (oracle w0 (2 + n))
  || (negb (a_decr a =? 0)
      && (is_null (oracle w0 (3 + n)) || is_null (oracle w0 (4 + n)))).

(** A registered handle, as the pointer a cancellation is given. *)
Definition as_cancelled (kh : op_kind * handle) : op_kind * ptr :=
  (fst kh, Some (snd kh)).

(** ** Invariants of a connection between loop turns *)

(** The fields of a live connection, between turns: the pipes exist as a
    pair, and exactly when the launch condition holds; a pending dial has
    no socket yet; a pending handshake has delivered no keys; the keys
    come as a pair; and on the encrypting side nothing of the handshake
    exists while the dial is pending. *)
Definition conn_inv (C : conn_state) : bool :=
  Bool.eqb (is_null (pipe_f C)) (is_null (pipe_r C))
  && Bool.eqb (negb (is_null (pipe_f C))) (pipes_ready C)
  && (is_null (connect_cookie C) || (t C =? -1))
  && (is_null (handshake_cookie C) || (is_null (k_f C) && is_null (k_r C)))
  && Bool.eqb (is_null (k_f C)) (is_null (k_r C))
  && ((negb (decr C =? 0)) || is_null (connect_cookie C)
      || (is_null (handshake_cookie C) && is_null (k_f C))).

(** With [base] launches recorded before the connection was created: a
    live connection has launched once if its pipes exist and never
    otherwise; a connection that is gone has launched at most once. *)
Definition pipes_inv (base : nat) (c : config) : Prop :=
  match c with
  | Live C w =>
    conn_inv C = true
    /\ launches (trace w) = (base + (if is_null (pipe_f C) then 0 else 1))%nat
  | Dead w => (launches (trace w) <= base + 1)%nat
  | Crashed w => (launches (trace w) <= base + 1)%nat
  end.

(** The sockets of the successful dial completions among loop events. *)
Definition dialed_socket (e : loop_event) : list Z :=
  match e with
  | L_connect_done fd => if fd =? -1 then [] else [fd]
  | _ => []
  end.

Definition dialed (evs : list loop_event) : list Z := flat_map dialed_socket evs.

(** On the encrypting side, after the loop events [h]: one handshake start
    per successful dial completion, on the dialed socket (the socket is
    missing from the trace only if the handshake timer could not be
    registered, and then the connection is gone); and a pending dial has
    seen no successful completion. *)
Definition encr_inv (starts0 : nat) (socks0 : list Z)
    (h : list loop_event) (c : config) : Prop :=
  handshake_starts (trace (world_of c))
  = (starts0 + List.length (dialed h))%nat
  /\ (List.length (dialed h) <= 1)%nat
  /\ match c with
     | Live C w =>
       decr C = 0
       /\ handshake_sockets (trace w) = socks0 ++ dialed h
       /\ (is_null (connect_cookie C) = false -> dialed h = [])
     | _ =>
       handshake_sockets (trace (world_of c)) = socks0 ++ dialed h
       \/ handshake_sockets (trace (world_of c)) = socks0
     end.

(** The state a successful [proto_conn_create] returns, given the handles
    of the dial timer, the dial, the handshake timer and the handshake. *)
Definition created (a : create_args) (ct cc th hh : ptr) : conn_state :=
  mk_conn_state (a_callback_dead a) (a_cookie a) (a_sas a) (a_decr a)
    (a_nopfs a) (a_requirepfs a) (a_nokeepalive a) (a_K a) (a_timeo a)
    (a_s a) (-1) cc ct hh th None None None None 1 1.

(** The calls of a successful create: allocation, dial timer, dial; and,
    when decrypting, handshake timer and handshake on [s]. *)
Definition dial_calls (a : create_args) (p ct cc : ptr) : list event :=
  [Ev_malloc OBJ_conn_state p;
   Ev_events_timer_register_double CB_connect_timeout (a_timeo a) ct;
   Ev_network_connect_bind (a_sas a) (a_sa_b a) CB_connect_done cc].

Definition handshake_calls (a : create_args) (sock : Z) (th hh : ptr)
    : list event :=
  [Ev_events_timer_register_double CB_handshake_timeout (a_timeo a) th;
   Ev_proto_handshake sock (a_decr a) (a_nopfs a) (a_requirepfs a) (a_K a)
     CB_handshake_done hh].

(** Whether [starthandshake] in a world succeeds: its timer and its
    handshake are the next two pointer-returning calls. *)
Definition handshake_starts_ok (w : world) : bool :=
  negb (is_null (oracle w (calls w)))
  && negb (is_null (oracle w (S (calls w)))).

(** ** Hosts and valid addresses *)

(** A host on which the code makes sense: [int] and [socklen_t] are not
    empty, a [socklen_t] fits in a [size_t], and so does the size of the
    fixed header. *)
Definition abi_ok (h : abi) : Prop :=
  (0 < sizeof_int h)%nat
  /\ (0 < sizeof_socklen_t h)%nat
  /\ (sizeof_socklen_t h <= sizeof_size_t h)%nat
  /\ 2 * Z.of_nat (sizeof_int h) + Z.of_nat (sizeof_socklen_t h)
     < modulus (sizeof_size_t h).

(** A 64-bit little-endian host: [int] and [socklen_t] of 4 bytes,
    [size_t] of 8. *)
Definition lp64 : abi := mk_abi 4 4 8 false.

(** A big-endian host with a 4-byte [size_t]. *)
Definition ilp32_be : abi := mk_abi 4 4 4 true.

(** The fields of a valid address hold values of their C types, [name]
    points to [namelen] bytes, and the serialized address is an object the
    host can hold. *)
Definition valid_sock_addr (h : abi) (sa : sock_addr) : Prop :=
  - (modulus (sizeof_int h) / 2) <= ai_family sa < modulus (sizeof_int h) / 2
  /\ - (modulus (sizeof_int h) / 2) <= ai_socktype sa < modulus (sizeof_int h) / 2
  /\ 0 <= namelen sa < modulus (sizeof_socklen_t h)
  /\ namelen sa = Z.of_nat (List.length (name sa))
  /\ 2 * Z.of_nat (sizeof_int h) + Z.of_nat (sizeof_socklen_t h) + namelen sa
     < modulus (sizeof_size_t h).

(** The name length a buffer declares: the [socklen_t] after the two
    [int]s. *)
Definition declared_namelen (h : abi) (buf : list byte) : Z :=
  load_socklen_t h (skipn (sizeof_int h) (skipn (sizeof_int h) buf)).

(** Whether the next two allocations in a world succeed. *)
Definition two_allocs_ok (w : world) : bool :=
  negb (is_null (oracle w (calls w)))
  && negb (is_null (oracle w (S (calls w)))).

(** ** Addresses that already contain a port *)

(** The three forms of the specification: a UNIX path [/p]; IPv4
    [host:p], where neither the host nor the port contains a colon; IPv6
    [[h]:p], where the port contains no bracket. *)
Inductive has_port : string -> Prop :=
| port_unix (p : string) : has_port ("/" ++ p)%string
| port_ipv4 (host p : string) :
    strchr host ":" = None -> strchr p ":" = None ->
    has_port (host ++ ":" ++ p)%string
| port_ipv6 (hh p : string) :
    strchr p "]" = None ->
    has_port ("[" ++ hh ++ "]:" ++ p)%string.

(** What returning a copy of [str] does to a world: one allocation, and the
    copy unless the allocation failed. *)
Definition copy_of (str : string) (w : world) : outcome (option string) :=
  Done (if is_null (oracle w (calls w)) then None else Some str)
    (mk_world (trace w ++ [Ev_malloc OBJ_string (oracle w (calls w))])
       (S (calls w)) (oracle w)).

(** Whether [sock_addr_ensure_port] takes one of its three branches that
    return the address as it is. *)
Definition verbatim (x : string) : bool :=
  char_is x 0 "/"
  || (negb (is_none (strchr x ":"))
      && (ptr_eqb (strchr x ":") (strrchr x ":")
          || match strrchr x "]" with
             | None => false
             | Some ic => negb (at_end x (S ic))
             end)).

(** ** Reading more of a trace *)

(** What a reader finds in a trace, event by event. *)
Definition collect {A} (f : event -> list A) (tr : list event) : list A :=
  flat_map f tr.

Definition opt_list {A} (o : option A) : list A :=
  match o with Some x => [x] | None => [] end.

(** Descriptors closed, frees of the connection state, address lists and
    keys released (a release of NULL releases nothing). *)
Definition closed_fd (e : event) : list Z :=
  match e with Ev_close fd => [fd] | _ => [] end.

Definition state_free (e : event) : list unit :=
  match e with Ev_free OBJ_conn_state => [tt] | _ => [] end.

Definition released_list (e : event) : list (list sock_addr) :=
  match e with Ev_sock_addr_freelist (Some l) => [l] | _ => [] end.

Definition freed_key (e : event) : list handle :=
  match e with Ev_proto_crypt_free (Some k) => [k] | _ => [] end.

Definition op_kind_eqb (j k : op_kind) : bool :=
  match j, k with
  | OP_timer, OP_timer => true
  | OP_connect, OP_connect => true
  | OP_handshake, OP_handshake => true
  | OP_pipe, OP_pipe => true
  | _, _ => false
  end.

(** The operations of one kind registered and cancelled by an event, and
    the cancellations handed a NULL pointer. *)
Definition registered (k : op_kind) (e : event) : list handle :=
  flat_map (fun r => if op_kind_eqb (fst r) k then [snd r] else [])
    (registration e).

Definition cancelled (k : op_kind) (e : event) : list ptr :=
  flat_map (fun r => if op_kind_eqb (fst r) k then [snd r] else [])
    (cancellation e).

Definition null_cancel (e : event) : list op_kind :=
  flat_map (fun r => if is_null (snd r) then [fst r] else []) (cancellation e).

(** A pointer that is held: NULL holds nothing. *)
Definition held (p : ptr) : list ptr :=
  match p with Some _ => [p] | None => [] end.

(** The operations of one kind pending in a state. *)
Definition pending (k : op_kind) (C : conn_state) : list ptr :=
  match k with
  | OP_timer =>
    held (connect_timeout_cookie C) ++ held (handshake_timeout_cookie C)
  | OP_connect => held (connect_cookie C)
  | OP_handshake => held (handshake_cookie C)
  | OP_pipe => held (pipe_f C) ++ held (pipe_r C)
  end.

(** The operations of one kind that a loop event completes: a completion
    callback is the end of its dial or handshake, a timeout callback the
    end of its timer; a pipe never ends by itself. *)
Definition completes (k : op_kind) (e : loop_event) : list unit :=
  match k, e with
  | OP_timer, L_connect_timeout => [tt]
  | OP_timer, L_handshake_timeout => [tt]
  | OP_connect, L_connect_done _ => [tt]
  | OP_handshake, L_handshake_done _ _ => [tt]
  | _, _ => []
  end.

Definition completed (k : op_kind) (h : list loop_event) : list unit :=
  flat_map (completes k) h.

(** The keys a handshake completion delivers as a pair. *)
Definition delivered_keys (e : loop_event) : list handle :=
  match e with
  | L_handshake_done (Some f) (Some r) => [f; r]
  | _ => []
  end.

Definition delivered (h : list loop_event) : list handle :=
  flat_map delivered_keys h.

(** ** More invariants of a connection between loop turns *)

(** The fields of a live connection of [a], between turns: [s] and [decr]
    are those it was created with; each operation is pending together with
    its timer; a pending dial has no socket and still holds the address
    list, a settled one has a socket and no list; keys come as a pair and
    only after the handshake has settled; the pipes exist exactly when the
    launch condition holds; and the handshake has been started (pending or
    settled with keys) exactly when this side decrypts or the dial has
    settled. *)
Definition state_inv (a : create_args) (C : conn_state) : Prop :=
  s C = a_s a
  /\ decr C = a_decr a
  /\ sas C = (if is_null (connect_cookie C) then None else a_sas a)
  /\ (Bool.eqb (is_null (connect_cookie C)) (is_null (connect_timeout_cookie C))
      && Bool.eqb (is_null (handshake_cookie C))
           (is_null (handshake_timeout_cookie C))
      && Bool.eqb (is_null (connect_cookie C)) (negb (t C =? -1))
      && Bool.eqb (is_null (k_f C)) (is_null (k_r C))
      && (is_null (handshake_cookie C) || is_null (k_f C))
      && Bool.eqb (negb (is_null (pipe_f C))) (pipes_ready C)
      && Bool.eqb (is_null (pipe_f C)) (is_null (pipe_r C))
      && Bool.eqb (negb (decr C =? 0) || is_null (connect_cookie C))
           (negb (is_null (handshake_cookie C)) || negb (is_null (k_f C))))
     = true.

(** What has been done to the resources of a connection of [a] created in
    the world [w0], after the loop events [h].  While it lives: no death
    callback, nothing closed, the state not freed, no key freed, the
    address list released iff the dial has settled.  Once dropped: one
    death callback, [s] and then the dialed socket (if any) closed, the
    state freed once, the address list released once, and the keys that
    were delivered freed, each of these exactly once. *)
Definition effects_inv (a : create_args) (w0 : world)
    (h : list loop_event) (c : config) : Prop :=
  let tr := trace (world_of c) in
  let tr0 := trace w0 in
  match c with
  | Live C w =>
    deaths tr = deaths tr0
    /\ collect closed_fd tr = collect closed_fd tr0
    /\ collect state_free tr = collect state_free tr0
    /\ collect freed_key tr = collect freed_key tr0
    /\ collect released_list tr
       = collect released_list tr0
         ++ (if is_null (connect_cookie C) then opt_list (a_sas a) else [])
    /\ dialed h = (if is_null (connect_cookie C) then [t C] else [])
    /\ delivered h = opt_list (k_f C) ++ opt_list (k_r C)
  | Dead w =>
    (exists why, deaths tr = deaths tr0 ++ [why])
    /\ collect closed_fd tr = collect closed_fd tr0 ++ a_s a :: dialed h
    /\ collect state_free tr = collect state_free tr0 ++ [tt]
    /\ collect freed_key tr = collect freed_key tr0 ++ delivered h
    /\ collect released_list tr = collect released_list tr0 ++ opt_list (a_sas a)
    /\ (List.length (dialed h) <= 1)%nat
  | Crashed w =>
    deaths tr = deaths tr0
    /\ collect closed_fd tr = collect closed_fd tr0
    /\ collect state_free tr = collect state_free tr0
  end.

(** The account of the operations of kind [k] of a connection created in
    [w0], after the loop events [h]: everything registered has been
    cancelled, or has completed, or (while the connection lives) is
    pending in the state; and no cancellation was handed NULL. *)
Definition account_inv (w0 : world) (h : list loop_event) (c : config)
    : Prop :=
  match c with
  | Live C w =>
    collect null_cancel (trace w) = collect null_cancel (trace w0)
    /\ forall k,
        (List.length (collect (registered k) (trace w))
         + List.length (collect (cancelled k) (trace w0))
         = List.length (collect (registered k) (trace w0))
           + List.length (collect (cancelled k) (trace w))
           + List.length (completed k h)
           + List.length (pending k C))%nat
  | Dead w =>
    collect null_cancel (trace w) = collect null_cancel (trace w0)
    /\ forall k,
        (List.length (collect (registered k) (trace w))
         + List.length (collect (cancelled k) (trace w0))
         = List.length (collect (registered k) (trace w0))
           + List.length (collect (cancelled k) (trace w))
           + List.length (completed k h))%nat
  | Crashed w => True
  end.

(** Everything the connection keeps between turns, together. *)
Definition run_inv (a : create_args) (w0 : world) (h : list loop_event)
    (c : config) : Prop :=
  match c with Live C _ => state_inv a C | _ => True end
  /\ effects_inv a w0 h c
  /\ account_inv w0 h c.

(** The reason a loop event gives when it leads to a drop: a dial that
    failed, a handshake that delivered (null, null), a status change that
    leaves both directions closed without error; an error otherwise. *)
Definition drop_reason (e : loop_event) (C : conn_state) : reason :=
  match e with
  | L_connect_done fd =>
    if fd =? -1 then PROTO_CONN_CONNECT_FAILED else PROTO_CONN_ERROR
  | L_handshake_done f r =>
    if is_null f && is_null r then PROTO_CONN_HANDSHAKE_FAILED
    else PROTO_CONN_ERROR
  | L_pipe_status sv st =>
    let sf := match sv with STAT_F => st | STAT_R => stat_f C end in
    let sr := match sv with STAT_F => stat_r C | STAT_R => st end in
    if (sf =? -1) || (sr =? -1) then PROTO_CONN_ERROR else PROTO_CONN_CLOSED
  | L_connect_timeout => PROTO_CONN_ERROR
  | L_handshake_timeout => PROTO_CONN_ERROR
  end.

(** A connection of [a] that shuttles data: alive, dialed to [fd], holding
    the keys [f] and [r], nothing pending, the address list released, and
    its two pipes created by [launchpipes] in its world: forward from [s] to
    [fd] under [f], reverse from [fd] to [s] under [r]. *)
Definition piping (a : create_args) (fd : Z) (f r : handle) (c : config)
    : Prop :=
  exists C w pf pr,
    c = Live C w
    /\ t C = fd /\ k_f C = Some f /\ k_r C = Some r
    /\ pipe_f C = Some pf /\ pipe_r C = Some pr
    /\ connect_cookie C = None /\ connect_timeout_cookie C = None
    /\ handshake_cookie C = None /\ handshake_timeout_cookie C = None
    /\ sas C = None
    /\ In (Ev_proto_pipe (a_s a) fd (a_decr a) (Some f) STAT_F CB_pipestatus
             (Some pf)) (trace w)
    /\ In (Ev_proto_pipe fd (a_s a) (if a_decr a =? 0 then 1 else 0) (Some r)
             STAT_R CB_pipestatus (Some pr)) (trace w).

(** ** Reading allocations off a trace *)

Definition object_eqb (x y : object) : bool :=
  match x, y with
  | OBJ_conn_state, OBJ_conn_state => true
  | OBJ_sock_addr, OBJ_sock_addr => true
  | OBJ_name, OBJ_name => true
  | OBJ_buf, OBJ_buf => true
  | OBJ_string, OBJ_string => true
  | _, _ => false
  end.

(** The blocks of one kind an event allocates, and the frees of that
    kind. *)
Definition allocated (what : object) (e : event) : list handle :=
  match e with
  | Ev_malloc o (Some p) => if object_eqb o what then [p] else []
  | _ => []
  end.

Definition freed (what : object) (e : event) : list unit :=
  match e with
  | Ev_free o => if object_eqb o what then [tt] else []
  | _ => []
  end.

(** Whether the [k] pointer-returning calls that come next all succeed. *)
Definition allocs_ok (w : world) (k : nat) : bool :=
  forallb (fun i => negb (is_null (oracle w (calls w + i)))) (seq 0 k).

(** ** Basic facts about the monad and the trace readers *)

(** The whole of [proto_conn_drop] in one step. *)
Lemma proto_conn_drop_run C why w :
  proto_conn_drop C why w
  = Done (callback_dead C (cookie C) why) (push w (teardown C why)).
Proof.
  destruct w as [tr n orc].
  unfold proto_conn_drop, teardown, push, when_present.
  destruct (t C =? -1), (connect_cookie C), (handshake_cookie C),
    (connect_timeout_cookie C), (handshake_timeout_cookie C),
    (pipe_f C), (pipe_r C);
    cbn; repeat rewrite <- app_assoc; reflexivity.
Qed.

Lemma bind_drop {B} C why (k : Z -> M B) w :
  bind (proto_conn_drop C why) k w
  = k (callback_dead C (cookie C) why) (push w (teardown C why)).
Proof. unfold bind. now rewrite proto_conn_drop_run. Qed.

Lemma dropped_run C why w :
  dropped C why w
  = Done (callback_dead C (cookie C) why, None) (push w (teardown C why)).
Proof. unfold dropped. now rewrite bind_drop. Qed.

Lemma launches_app a b : launches (a ++ b) = (launches a + launches b)%nat.
Proof. unfold launches. now rewrite filter_app, length_app. Qed.

Lemma handshake_starts_app a b :
  handshake_starts (a ++ b) = (handshake_starts a + handshake_starts b)%nat.
Proof. unfold handshake_starts. now rewrite filter_app, length_app. Qed.

Lemma handshake_sockets_app a b :
  handshake_sockets (a ++ b) = handshake_sockets a ++ handshake_sockets b.
Proof. apply flat_map_app. Qed.

(** What a teardown does and does not contain. *)
Lemma teardown_quiet C why :
  launches (teardown C why) = 0%nat
  /\ handshake_starts (teardown C why) = 0%nat
  /\ handshake_sockets (teardown C why) = []
  /\ deaths (teardown C why) = [why].
Proof.
  unfold teardown, when_present.
  destruct (t C =? -1), (connect_cookie C), (handshake_cookie C),
    (connect_timeout_cookie C), (handshake_timeout_cookie C),
    (pipe_f C), (pipe_r C); cbn; auto.
Qed.

Lemma teardown_frees_keys C why :
  In (Ev_proto_crypt_free (k_f C)) (teardown C why)
  /\ In (Ev_proto_crypt_free (k_r C)) (teardown C why).
Proof.
  unfold teardown, when_present.
  destruct (t C =? -1), (connect_cookie C), (handshake_cookie C),
    (connect_timeout_cookie C), (handshake_timeout_cookie C),
    (pipe_f C), (pipe_r C);
    split; cbn; repeat (first [left; reflexivity | right]).
Qed.

Arguments launches : simpl never.
Arguments handshake_starts : simpl never.
Arguments handshake_sockets : simpl never.
Arguments deaths : simpl never.

Lemma launches_snoc l e :
  launches (l ++ [e]) = (launches l + (if is_launch e then 1 else 0))%nat.
Proof. rewrite launches_app. unfold launches at 2. cbn. now destruct (is_launch e). Qed.

Lemma handshake_starts_snoc l e :
  handshake_starts (l ++ [e])
  = (handshake_starts l + (if is_handshake_start e then 1 else 0))%nat.
Proof.
  rewrite handshake_starts_app. unfold handshake_starts at 2. cbn.
  now destruct (is_handshake_start e).
Qed.

Lemma handshake_sockets_snoc l e :
  handshake_sockets (l ++ [e]) = handshake_sockets l ++ handshake_socket e.
Proof.
  rewrite handshake_sockets_app. unfold handshake_sockets at 2. cbn.
  now rewrite app_nil_r.
Qed.

Lemma launches_teardown l C why :
  launches (l ++ teardown C why) = launches l.
Proof.
  rewrite launches_app. rewrite (proj1 (teardown_quiet C why)). lia.
Qed.

Lemma handshake_starts_teardown l C why :
  handshake_starts (l ++ teardown C why) = handshake_starts l.
Proof.
  rewrite handshake_starts_app.
  rewrite (proj1 (proj2 (teardown_quiet C why))). lia.
Qed.

Lemma handshake_sockets_teardown l C why :
  handshake_sockets (l ++ teardown C why) = handshake_sockets l.
Proof.
  rewrite handshake_sockets_app.
  rewrite (proj1 (proj2 (proj2 (teardown_quiet C why)))).
  now rewrite app_nil_r.
Qed.

Lemma deaths_cons e l : deaths (e :: l) = death e ++ deaths l.
Proof. reflexivity. Qed.

Lemma deaths_teardown C why : deaths (teardown C why) = [why].
Proof. apply teardown_quiet. Qed.

(** ** proto_conn_drop *)

(** C1.  [proto_conn_drop] on a connection state always returns; the calls
    it makes are exactly those of [teardown], in that order: close [s];
    close [t] iff it is not -1; cancel the dial iff its handle is non-null;
    release the address list; cancel the handshake iff its handle is
    non-null; cancel the dial timer and then the handshake timer, each iff
    non-null; free both keys; cancel each pipe iff non-null; invoke the
    death callback with the given reason; free the state.  The death
    callback is invoked exactly once, and its return code is what drop
    returns. *)
Theorem proto_conn_drop_teardown_order (C : conn_state) (why : reason) (w : world) :
  proto_conn_drop C why w
  = Done (callback_dead C (cookie C) why)
      (mk_world (trace w ++ teardown C why) (calls w) (oracle w))
  /\ deaths (teardown C why) = [why]
  /\ (exists before,
        teardown C why
        = Ev_close (s C) :: before
          ++ [Ev_callback_dead (cookie C) why (callback_dead C (cookie C) why);
              Ev_free OBJ_conn_state]
        /\ deaths before = []).
Proof.
  split; [apply proto_conn_drop_run|].
  split; [apply teardown_quiet|].
  exists ((if t C =? -1 then [] else [Ev_close (t C)])
          ++ when_present (connect_cookie C) Ev_network_connect_cancel
          ++ [Ev_sock_addr_freelist (sas C)]
          ++ when_present (handshake_cookie C) Ev_proto_handshake_cancel
          ++ when_present (connect_timeout_cookie C) Ev_events_timer_cancel
          ++ when_present (handshake_timeout_cookie C) Ev_events_timer_cancel
          ++ [Ev_proto_crypt_free (k_f C); Ev_proto_crypt_free (k_r C)]
          ++ when_present (pipe_f C) Ev_proto_pipe_cancel
          ++ when_present (pipe_r C) Ev_proto_pipe_cancel).
  unfold teardown, when_present.
  destruct (t C =? -1), (connect_cookie C), (handshake_cookie C),
    (connect_timeout_cookie C), (handshake_timeout_cookie C),
    (pipe_f C), (pipe_r C); split; reflexivity.
Qed.

(** A live connection with every resource present: the full teardown. *)
Example proto_conn_drop_full :
  let C := mk_conn_state (fun _ _ => 42) 5 (Some []) 1 0 0 0 None 5.0%float
             3 7 (Some 10%N) (Some 11%N) (Some 12%N) (Some 13%N)
             (Some 14%N) (Some 15%N) (Some 16%N) (Some 17%N) 1 1 in
  proto_conn_drop C PROTO_CONN_ERROR (mk_world [] 0 (fun _ => None))
  = Done 42
      (mk_world
         [Ev_close 3; Ev_close 7; Ev_network_connect_cancel (Some 10%N);
          Ev_sock_addr_freelist (Some []);
          Ev_proto_handshake_cancel (Some 12%N);
          Ev_events_timer_cancel (Some 11%N);
          Ev_events_timer_cancel (Some 13%N);
          Ev_proto_crypt_free (Some 14%N); Ev_proto_crypt_free (Some 15%N);
          Ev_proto_pipe_cancel (Some 16%N); Ev_proto_pipe_cancel (Some 17%N);
          Ev_callback_dead 5 PROTO_CONN_ERROR 42; Ev_free OBJ_conn_state]
         0 (fun _ => None)).
Proof. reflexivity. Qed.

(** A connection that has nothing but its socket [s]. *)
Example proto_conn_drop_bare :
  let C := mk_conn_state (fun _ _ => 0) 5 None 0 0 0 0 None 5.0%float
             3 (-1) None None None None None None None None 1 1 in
  trace (after (proto_conn_drop C PROTO_CONN_CLOSED (mk_world [] 0 (fun _ => None))))
  = [Ev_close 3; Ev_sock_addr_freelist None;
     Ev_proto_crypt_free None; Ev_proto_crypt_free None;
     Ev_callback_dead 5 PROTO_CONN_CLOSED 0; Ev_free OBJ_conn_state].
Proof. reflexivity. Qed.

(** ** The pipe status callback *)

(** The nine pairs of the specification's table. *)
Example status_policy_table :
  map (fun p => status_policy (fst p) (snd p))
    [(-1, -1); (-1, 0); (-1, 1); (0, -1); (0, 0); (0, 1); (1, -1); (1, 0); (1, 1)]
  = [Drop_with PROTO_CONN_ERROR; Drop_with PROTO_CONN_ERROR;
     Drop_with PROTO_CONN_ERROR; Drop_with PROTO_CONN_ERROR;
     Drop_with PROTO_CONN_CLOSED; Noop;
     Drop_with PROTO_CONN_ERROR; Noop; Noop].
Proof. reflexivity. Qed.

Lemma status_policy_eq sf sr :
  status_policy sf sr
  = if (sf =? -1) || (sr =? -1) then Drop_with PROTO_CONN_ERROR
    else if (sf =? 0) && (sr =? 0) then Drop_with PROTO_CONN_CLOSED
    else Noop.
Proof.
  destruct sf as [|p|p]; [| |destruct p];
    (destruct sr as [|q|q]; [| |destruct q]); reflexivity.
Qed.

(** C4.  One invocation of [callback_pipestatus] follows the status table:
    with a status of -1 on either side the connection is dropped with
    reason ERROR; else with both statuses 0 it is dropped with reason
    CLOSED; otherwise the state and the world are unchanged and 0 is
    returned.  This holds for every pair of statuses, so for each of the
    nine pairs over -1, 0 and 1. *)
Theorem callback_pipestatus_policy (C : conn_state) (w : world) :
  match status_policy (stat_f C) (stat_r C) with
  | Drop_with why =>
    callback_pipestatus C w
    = Done (callback_dead C (cookie C) why, None)
        (mk_world (trace w ++ teardown C why) (calls w) (oracle w))
    /\ proto_conn_drop C why w
       = Done (callback_dead C (cookie C) why)
           (mk_world (trace w ++ teardown C why) (calls w) (oracle w))
  | Noop => callback_pipestatus C w = Done (0, Some C) w
  end.
Proof.
  rewrite status_policy_eq. unfold callback_pipestatus.
  destruct ((stat_f C =? -1) || (stat_r C =? -1)).
  - split; [apply dropped_run | apply proto_conn_drop_run].
  - destruct ((stat_f C =? 0) && (stat_r C =? 0)).
    + split; [apply dropped_run | apply proto_conn_drop_run].
    + reflexivity.
Qed.

(** Half-close: the forward pipe has closed, the reverse one still runs. *)
Example callback_pipestatus_half_close :
  let C := mk_conn_state (fun _ _ => 0) 5 None 1 0 0 0 None 5.0%float
             3 7 None None None None (Some 14%N) (Some 15%N)
             (Some 16%N) (Some 17%N) 0 1 in
  let w := mk_world [] 9 (fun _ => None) in
  callback_pipestatus C w = Done (0, Some C) w
  /\ deaths (trace (after (callback_pipestatus (set_stat_r C 0) w)))
     = [PROTO_CONN_CLOSED]
  /\ deaths (trace (after (callback_pipestatus (set_stat_r C (-1)) w)))
     = [PROTO_CONN_ERROR].
Proof. repeat split. Qed.

(** ** proto_conn_create *)

(** Unfold the primitives down to [bind], [fresh] and [emit]. *)
Ltac unfold_prims :=
  unfold malloc, free, close, setsockopt, events_timer_register_double,
    events_timer_cancel, network_connect_bind, network_connect_cancel,
    proto_handshake, proto_handshake_cancel, proto_pipe, proto_pipe_cancel,
    proto_crypt_free, sock_addr_freelist, warnp in *.

(** Close one fully evaluated case of [proto_conn_create]. *)
Ltac create_case :=
  rewrite <- ?app_assoc; cbn [app];
  eexists _, _, _; split; [reflexivity|];
  split;
  [ intros _; split;
    [ split; intros; first [reflexivity | discriminate]
    | intros; first
        [ discriminate
        | match goal with
          | |- exists e, ?l = e ++ _ => exists (removelast l); reflexivity
          end ] ]
  | intros; first [discriminate | repeat split] ].

(** Every outcome of [proto_conn_create]: the failure test, and the trace
    as the old one followed by the new events. *)
Lemma proto_conn_create_outcome a w0 :
  exists r evs n,
    proto_conn_create a w0 = Done r (mk_world (trace w0 ++ evs) n (oracle w0))
    /\ (oracle w0 (calls w0) <> None ->
        (r = None <-> setup_failure a w0 = true)
        /\ (r = None -> exists evs', evs = evs' ++ [Ev_free OBJ_conn_state]))
    /\ (r = None ->
        cancellations evs = map as_cancelled (rev (registrations evs))
        /\ deaths evs = []
        /\ filter is_freelist evs = []).
Proof.
  destruct w0 as [tr n orc].
  unfold proto_conn_create, starthandshake, setup_failure. unfold_prims.
  unfold bind, fresh, emit, ret. cbn.
  destruct (orc n) eqn:E0; cbn.
  2:{ eexists _, [_], _. split; [reflexivity|].
      split; [congruence|]. intros _. repeat split. }
  destruct (orc (S n)) eqn:E1; cbn; [|create_case].
  destruct (orc (S (S n))) eqn:E2; cbn; [|create_case].
  destruct (a_decr a =? 0) eqn:Ed; cbn; [create_case|].
  destruct (orc (S (S (S n)))) eqn:E3; cbn; [|create_case].
  destruct (orc (S (S (S (S n))))) eqn:E4; cbn; create_case.
Qed.

(** C5.  Whenever a setup step of [proto_conn_create] fails (the dial
    timer, the dial, or, when decrypting, the handshake timer or the
    handshake is not registered), create returns NULL; the handles it
    cancelled are exactly the handles it had registered, in reverse order
    of registration; the last thing it does is free the state; and the
    death callback is not invoked. *)
Theorem proto_conn_create_rollback (a : create_args) (w0 : world) :
  oracle w0 (calls w0) <> None ->
  setup_failure a w0 = true ->
  exists evs n,
    proto_conn_create a w0 = Done None (mk_world (trace w0 ++ evs) n (oracle w0))
    /\ cancellations evs = map as_cancelled (rev (registrations evs))
    /\ (exists evs', evs = evs' ++ [Ev_free OBJ_conn_state])
    /\ deaths evs = [].
Proof.
  intros Hm Hf.
  destruct (proto_conn_create_outcome a w0) as (r & evs & n & Hrun & Hok & Hnone).
  destruct (Hok Hm) as [Hiff Hfree].
  assert (r = None) as -> by now apply Hiff.
  exists evs, n. split; [exact Hrun|].
  destruct (Hnone eq_refl) as (Hc & Hd & _).
  repeat split; auto.
Qed.

(** The handshake cannot be started on the decrypting side: the handshake
    timer, the dial and the dial timer are cancelled, in that order. *)
Lemma proto_conn_create_rollback_witness :
  let a := mk_create_args 3 (Some []) None 1 0 0 0 None 5.0%float
             (fun _ _ => 0) 5 in
  let w0 := mk_world [] 0 (fun n => if (n <? 4)%nat then Some (N.of_nat n) else None) in
  (oracle w0 (calls w0) <> None /\ setup_failure a w0 = true)
  /\ exists evs n,
       proto_conn_create a w0 = Done None (mk_world (trace w0 ++ evs) n (oracle w0))
       /\ cancellations evs = map as_cancelled (rev (registrations evs))
       /\ (exists evs', evs = evs' ++ [Ev_free OBJ_conn_state])
       /\ deaths evs = [].
Proof.
  intros a w0. split.
  - split; [discriminate | reflexivity].
  - apply (proto_conn_create_rollback a w0); [discriminate | reflexivity].
Defined.

Example proto_conn_create_handshake_fails :
  let a := mk_create_args 3 (Some []) None 1 0 0 0 None 5.0%float
             (fun _ _ => 0) 5 in
  let w0 := mk_world [] 0 (fun n => if (n <? 4)%nat then Some (N.of_nat n) else None) in
  proto_conn_create a w0
  = Done None
      (mk_world
         [Ev_malloc OBJ_conn_state (Some 0%N);
          Ev_events_timer_register_double CB_connect_timeout 5.0%float (Some 1%N);
          Ev_network_connect_bind (Some []) None CB_connect_done (Some 2%N);
          Ev_events_timer_register_double CB_handshake_timeout 5.0%float (Some 3%N);
          Ev_proto_handshake 3 1 0 0 None CB_handshake_done None;
          Ev_events_timer_cancel (Some 3%N);
          Ev_network_connect_cancel (Some 2%N);
          Ev_events_timer_cancel (Some 1%N);
          Ev_free OBJ_conn_state]
         5 (fun n => if (n <? 4)%nat then Some (N.of_nat n) else None)).
Proof. reflexivity. Qed.

Example proto_conn_create_dial_fails :
  let a := mk_create_args 3 (Some []) None 0 0 0 0 None 5.0%float
             (fun _ _ => 0) 5 in
  let w0 := mk_world [] 0 (fun n => if (n <? 2)%nat then Some (N.of_nat n) else None) in
  trace (after (proto_conn_create a w0))
  = [Ev_malloc OBJ_conn_state (Some 0%N);
     Ev_events_timer_register_double CB_connect_timeout 5.0%float (Some 1%N);
     Ev_network_connect_bind (Some []) None CB_connect_done None;
     Ev_events_timer_cancel (Some 1%N);
     Ev_free OBJ_conn_state].
Proof. reflexivity. Qed.

(** ** Evaluating the callbacks *)

Arguments proto_conn_drop : simpl never.
Arguments teardown : simpl never.

Lemma is_null_Some h : is_null (Some h) = false.
Proof. reflexivity. Qed.

Lemma is_null_None : is_null None = true.
Proof. reflexivity. Qed.

(** Reduce field reads and updates of a state given by its fields, decided
    tests and the bookkeeping of worlds; everything else stays folded. *)
Ltac reduce_conn :=
  lazy beta iota zeta delta
    [negb andb orb fst snd
     callback_dead cookie sas decr nopfs requirepfs nokeepalive K timeo s t
     connect_cookie connect_timeout_cookie handshake_cookie
     handshake_timeout_cookie k_f k_r pipe_f pipe_r stat_f stat_r
     set_sas set_t set_connect_cookie set_connect_timeout_cookie
     set_handshake_cookie set_handshake_timeout_cookie set_k_f set_k_r
     set_pipe_f set_pipe_r set_stat_f set_stat_r
     trace calls oracle after settle world_of push] in *;
  rewrite ?is_null_Some, ?is_null_None in *;
  change (-1 =? 0) with false in *;
  change (0 =? 0) with true in *;
  lazy beta iota delta [negb andb orb Bool.eqb] in *.

(** Close a case whose hypotheses contradict each other. *)
Ltac prune :=
  try match goal with
      | H : false = true |- _ => discriminate H
      | H : true = false |- _ => discriminate H
      | H : Some _ = None |- _ => discriminate H
      | H : None = Some _ |- _ => discriminate H
      end.

(** One step of evaluation: a drop is replaced by its teardown, a test on
    an oracle answer or on a field is decided both ways. *)
Ltac eval_step :=
  first
    [ rewrite proto_conn_drop_run
    | match goal with
      | |- context [is_null ?p] =>
        let E := fresh "E" in destruct p eqn:E; rewrite ?E in *
      | |- context [?x =? ?y] =>
        let E := fresh "E" in destruct (x =? y) eqn:E; rewrite ?E in *
      end ];
  reduce_conn; prune.

(** Use the tests already decided. *)
Ltac use_eqns :=
  repeat match goal with
         | E : (?x =? ?y) = _ |- context [?x =? ?y] => rewrite E
         | E : ?o ?n = _ |- context [is_null (?o ?n)] => rewrite E
         end.

Ltac split_on c :=
  let E := fresh "E" in
  destruct c eqn:E; rewrite ?E in *; clear E; reduce_conn; prune.

(** Decide the remaining tests on fields, all ways. *)
Ltac decide_fields :=
  repeat match goal with
         | H : context [is_null ?p] |- _ => split_on p
         | H : context [?x =? ?y] |- _ =>
           lazymatch type of H with
           | (_ =? _) = _ => fail
           | _ => split_on (x =? y)
           end
         | |- context [is_null ?p] => split_on p
         | |- context [?x =? ?y] => split_on (x =? y)
         end.

(** Evaluate a callback on a state and a world given by their fields. *)
Ltac eval_callback :=
  unfold dispatch, callback_connect_done, callback_connect_timeout,
    callback_handshake_done, callback_handshake_timeout, callback_pipestatus,
    dropped, launchpipes, starthandshake, assert;
  unfold_prims; unfold bind, fresh, emit, ret; reduce_conn.

(** An event of the teardown that ends a list of events. *)
Ltac in_teardown :=
  match goal with
  | |- In _ (teardown ?C ?why) =>
    first [ exact (proj1 (teardown_frees_keys C why))
          | exact (proj2 (teardown_frees_keys C why)) ]
  | |- In _ (_ :: _) => right; in_teardown
  | |- _ \/ _ => right; in_teardown
  end.

(** ** callback_handshake_done and its assertions *)

(** C10.  Given exactly one null key, [callback_handshake_done] cancels the
    handshake timer and stops on a failed assertion: nothing is dropped.
    Given (null, null) it drops the connection with HANDSHAKE_FAILED.
    Given two keys both assertions pass and both keys are recorded in the
    state: either the state lives on holding them, or the pipes could not
    be launched and the state is dropped with ERROR, its teardown
    releasing the two keys. *)
Theorem callback_handshake_done_keys (C : conn_state) (f r : ptr) (w : world) :
  let C0 := set_handshake_timeout_cookie (set_handshake_cookie C None) None in
  let cancel := Ev_events_timer_cancel (handshake_timeout_cookie C) in
  (is_null f <> is_null r ->
   callback_handshake_done C f r w
   = Aborted (mk_world (trace w ++ [cancel]) (calls w) (oracle w)))
  /\ (f = None -> r = None ->
      callback_handshake_done C f r w
      = Done (callback_dead C (cookie C) PROTO_CONN_HANDSHAKE_FAILED, None)
          (mk_world
             (trace w ++ cancel :: teardown C0 PROTO_CONN_HANDSHAKE_FAILED)
             (calls w) (oracle w)))
  /\ (f <> None -> r <> None ->
      exists rc o evs n,
        callback_handshake_done C f r w
        = Done (rc, o) (mk_world (trace w ++ cancel :: evs) n (oracle w))
        /\ match o with
           | Some C' => k_f C' = f /\ k_r C' = r /\ deaths evs = []
           | None =>
             rc = -1 /\ deaths evs = [PROTO_CONN_ERROR]
             /\ In (Ev_proto_crypt_free f) evs
             /\ In (Ev_proto_crypt_free r) evs
           end).
Proof.
  intros C0 cancel. subst C0 cancel.
  destruct w as [tr n orc]. destruct C.
  split; [|split].
  - intros Hx. eval_callback.
    destruct f, r; reduce_conn; try congruence; reflexivity.
  - intros -> ->. eval_callback. rewrite proto_conn_drop_run.
    reduce_conn. now rewrite <- app_assoc.
  - intros Hf Hr. destruct f as [f|]; [|congruence].
    destruct r as [r|]; [|congruence].
    eval_callback.
    repeat eval_step;
      rewrite <- ?app_assoc; cbn [app];
      eexists _, _, _, _; (split; [reflexivity|]); cbv beta iota;
      repeat split;
      rewrite ?deaths_cons, ?deaths_teardown;
      try reflexivity; in_teardown.
Qed.

(** An invocation with exactly one key stops the process; one with two
    keys, before the dial has completed, records them. *)
Lemma callback_handshake_done_keys_witness :
  let C := mk_conn_state (fun _ _ => 0) 5 (Some []) 1 0 0 0 None 5.0%float
             3 (-1) (Some 2%N) (Some 1%N) (Some 4%N) (Some 3%N)
             None None None None 1 1 in
  let w := mk_world [] 5 (fun _ => None) in
  callback_handshake_done C None (Some 9%N) w
  = Aborted (mk_world [Ev_events_timer_cancel (Some 3%N)] 5 (fun _ => None))
  /\ exists rc o evs n,
       callback_handshake_done C (Some 8%N) (Some 9%N) w
       = Done (rc, o)
           (mk_world ([] ++ Ev_events_timer_cancel (Some 3%N) :: evs) n
              (fun _ => None))
       /\ match o with
          | Some C' => k_f C' = Some 8%N /\ k_r C' = Some 9%N /\ deaths evs = []
          | None =>
            rc = -1 /\ deaths evs = [PROTO_CONN_ERROR]
            /\ In (Ev_proto_crypt_free (Some 8%N)) evs
            /\ In (Ev_proto_crypt_free (Some 9%N)) evs
          end.
Proof.
  intros C w. split.
  - apply (proj1 (callback_handshake_done_keys C None (Some 9%N) w)).
    discriminate.
  - apply (proj2 (proj2 (callback_handshake_done_keys C (Some 8%N) (Some 9%N) w)));
      discriminate.
Defined.

(** ** The address list on failure and on success *)

(** The first calls of [callback_connect_done]. *)
Lemma callback_connect_done_releases C fd w :
  exists rest,
    trace (after (callback_connect_done C fd w))
    = trace w ++ Ev_sock_addr_freelist (sas C)
        :: Ev_events_timer_cancel (connect_timeout_cookie C) :: rest.
Proof.
  destruct w as [tr n orc]. destruct C. eval_callback.
  repeat eval_step; rewrite <- ?app_assoc; cbn [app]; eexists; reflexivity.
Qed.

Lemma teardown_releases C why :
  In (Ev_sock_addr_freelist (sas C)) (teardown C why).
Proof.
  unfold teardown, when_present.
  destruct (t C =? -1), (connect_cookie C), (handshake_cookie C),
    (connect_timeout_cookie C), (handshake_timeout_cookie C),
    (pipe_f C), (pipe_r C);
    cbn; repeat (first [left; reflexivity | right]).
Qed.

(** C9.  When [proto_conn_create] returns NULL it has made no call that
    releases the address list: among the calls of a failed create there is
    no [sock_addr_freelist], so the list stays the caller's.  After a
    successful create the state holds the list, and it is released by
    [callback_connect_done] (its first call) and by the teardown of
    [proto_conn_drop]. *)
Theorem proto_conn_create_failure_keeps_sas (a : create_args) (w0 w : world) :
  proto_conn_create a w0 = Done None w ->
  (exists evs, trace w = trace w0 ++ evs /\ filter is_freelist evs = [])
  /\ (forall C fd w1, exists rest,
        trace (after (callback_connect_done C fd w1))
        = trace w1 ++ Ev_sock_addr_freelist (sas C) :: rest)
  /\ (forall C why, In (Ev_sock_addr_freelist (sas C)) (teardown C why)).
Proof.
  intros Hrun.
  destruct (proto_conn_create_outcome a w0) as (r & evs & n & Hrun' & _ & Hnone).
  rewrite Hrun in Hrun'. injection Hrun' as <- ->.
  split; [|split].
  - exists evs. split; [reflexivity|]. now apply Hnone.
  - intros C fd w1.
    destruct (callback_connect_done_releases C fd w1) as [rest Hr].
    eauto.
  - apply teardown_releases.
Qed.

Lemma proto_conn_create_failure_keeps_sas_witness :
  let sa := mk_sock_addr 2 1 [] 0 in
  let a := mk_create_args 3 (Some [sa]) None 1 0 0 0 None 5.0%float
             (fun _ _ => 0) 5 in
  let w0 := mk_world [] 0 (fun n => if (n <? 4)%nat then Some (N.of_nat n) else None) in
  let w := after (proto_conn_create a w0) in
  proto_conn_create a w0 = Done None w
  /\ exists evs, trace w = trace w0 ++ evs /\ filter is_freelist evs = [].
Proof.
  intros sa a w0 w. split; [vm_compute; reflexivity|].
  apply (proto_conn_create_failure_keeps_sas a w0 w).
  vm_compute; reflexivity.
Defined.

(** ** Runs of the event loop *)

Lemma play_history (P : list loop_event -> config -> Prop) :
  (forall h C w e,
      P h (Live C w) -> enabled e C = true ->
      P (h ++ [e]) (settle (dispatch e C w))) ->
  forall evs h c c',
    P h c -> play evs c = Some c' -> P (h ++ evs) c'.
Proof.
  intros Hstep evs. induction evs as [|e evs IH]; intros h c c' HP Hplay.
  - cbn in Hplay. injection Hplay as <-. now rewrite app_nil_r.
  - cbn in Hplay. destruct c as [C w| |]; try discriminate.
    destruct (enabled e C) eqn:En; try discriminate.
    replace (h ++ e :: evs) with ((h ++ [e]) ++ evs)
      by now rewrite <- app_assoc.
    eapply IH; [|exact Hplay]. now apply Hstep.
Qed.

(** Bring the counts of a trace down to those of the trace it extends. *)
Ltac count_trace :=
  unfold push in *; cbn [trace calls oracle world_of after] in *;
  rewrite ?launches_teardown, ?launches_snoc,
    ?handshake_starts_teardown, ?handshake_starts_snoc,
    ?handshake_sockets_teardown, ?handshake_sockets_snoc;
  cbn [is_launch is_handshake_start handshake_socket].


(** A successful create, spelled out. *)
Lemma proto_conn_create_success a w0 C w :
  proto_conn_create a w0 = Done (Some C) w ->
  exists p ct cc,
    ((a_decr a =? 0) = true
     /\ C = created a (Some ct) (Some cc) None None
     /\ w = mk_world (trace w0 ++ dial_calls a (Some p) (Some ct) (Some cc))
              (3 + calls w0) (oracle w0))
    \/ ((a_decr a =? 0) = false
        /\ exists th hh,
            C = created a (Some ct) (Some cc) (Some th) (Some hh)
            /\ w = mk_world
                     (trace w0 ++ dial_calls a (Some p) (Some ct) (Some cc)
                      ++ handshake_calls a (a_s a) (Some th) (Some hh))
                     (5 + calls w0) (oracle w0)).
Proof.
  destruct w0 as [tr n orc].
  unfold proto_conn_create, starthandshake. unfold_prims.
  unfold bind, fresh, emit, ret. cbn.
  destruct (orc n) eqn:E0; cbn; [|discriminate].
  destruct (orc (S n)) eqn:E1; cbn; [|discriminate].
  destruct (orc (S (S n))) eqn:E2; cbn; [|discriminate].
  destruct (a_decr a =? 0) eqn:Ed; cbn.
  - intros H. injection H as <- <-. eexists _, _, _. left.
    repeat split. unfold dial_calls. now rewrite <- !app_assoc.
  - destruct (orc (S (S (S n)))) eqn:E3; cbn; [|discriminate].
    destruct (orc (S (S (S (S n))))) eqn:E4; cbn; [|discriminate].
    intros H. injection H as <- <-. eexists _, _, _. right.
    split; [reflexivity|]. eexists _, _. split; [reflexivity|].
    unfold dial_calls, handshake_calls. now rewrite <- !app_assoc.
Qed.

(** ** The pipes are launched once *)

Lemma pipes_inv_step base C w e :
  pipes_inv base (Live C w) -> enabled e C = true ->
  pipes_inv base (settle (dispatch e C w)).
Proof.
  intros [Hinv Hl] En. destruct w as [tr n orc]. destruct C.
  unfold conn_inv, pipes_ready in Hinv.
  repeat (apply andb_prop in Hinv; destruct Hinv as [Hinv ?]).
  unfold enabled in En.
  destruct e as [fd| |f r| |[|] st]; unfold pipes_inv; eval_callback;
    repeat eval_step; count_trace;
    unfold conn_inv, pipes_ready; use_eqns; reduce_conn;
    decide_fields; try lia; try (split; [reflexivity | lia]).
Qed.

Lemma pipes_inv_created a w0 C w :
  proto_conn_create a w0 = Done (Some C) w ->
  pipes_inv (launches (trace w0)) (Live C w).
Proof.
  intros H. apply proto_conn_create_success in H. destruct w0 as [tr n orc].
  destruct H as (p & ct & cc & [(Ed & -> & ->) | (Ed & th & hh & -> & ->)]);
    unfold pipes_inv, conn_inv, pipes_ready, created; reduce_conn;
    rewrite ?Ed; (split; [reflexivity|]); rewrite !launches_app.
  - change (launches (dial_calls a (Some p) (Some ct) (Some cc))) with 0%nat.
    lia.
  - change (launches (dial_calls a (Some p) (Some ct) (Some cc))) with 0%nat.
    change (launches (handshake_calls a (a_s a) (Some th) (Some hh))) with 0%nat.
    lia.
Qed.


(** Where the launches of the two completion callbacks come from. *)
Lemma launches_connect_done C fd w :
  launches (trace (after (callback_connect_done C fd w)))
  = (launches (trace w)
     + (if (negb (fd =? -1)
            && (negb (decr C =? 0) || handshake_starts_ok w)
            && pipes_ready (set_t C fd))%Z
        then 1 else 0))%nat.
Proof.
  destruct w as [tr n orc]. destruct C.
  unfold handshake_starts_ok, pipes_ready.
  eval_callback; repeat eval_step; count_trace; use_eqns; reduce_conn;
    decide_fields; lia.
Qed.

Lemma launches_handshake_done C f r w :
  launches (trace (after (callback_handshake_done C f r w)))
  = (launches (trace w)
     + (if negb (is_null f) && negb (is_null r)
           && pipes_ready (set_k_r (set_k_f C f) r)
        then 1 else 0))%nat.
Proof.
  destruct w as [tr n orc]. destruct C.
  unfold pipes_ready.
  eval_callback; repeat eval_step; count_trace; use_eqns; reduce_conn;
    decide_fields; lia.
Qed.

(** C2.  Over every run of a connection (a successful create followed by
    loop events, each fired while its handle is pending): the pipes are
    launched at most once; between turns [pipe_f] is non-null iff [pipe_r]
    is, iff the dial has produced a socket and both keys are present, iff
    the launch has happened.  Each of the two completion callbacks
    launches under the same condition [pipes_ready], evaluated on the
    state it has just updated. *)
Theorem pipes_launched_once (a : create_args) (w0 : world)
    (evs : list loop_event) (c : config) :
  lifecycle a w0 evs = Some c ->
  (launches (trace (world_of c)) <= launches (trace w0) + 1)%nat
  /\ (forall C w, c = Live C w ->
        (pipe_f C <> None <-> pipe_r C <> None)
        /\ (pipe_f C <> None <->
            t C <> -1 /\ k_f C <> None /\ k_r C <> None)
        /\ (pipe_f C <> None <->
            launches (trace w) = (launches (trace w0) + 1)%nat)
        /\ (pipe_f C = None <-> launches (trace w) = launches (trace w0)))
  /\ (forall C fd w,
        launches (trace (after (callback_connect_done C fd w)))
        = (launches (trace w)
           + (if (negb (fd =? -1)
                  && (negb (decr C =? 0) || handshake_starts_ok w)
                  && pipes_ready (set_t C fd))%Z
              then 1 else 0))%nat)
  /\ (forall C f r w,
        launches (trace (after (callback_handshake_done C f r w)))
        = (launches (trace w)
           + (if negb (is_null f) && negb (is_null r)
                 && pipes_ready (set_k_r (set_k_f C f) r)
              then 1 else 0))%nat).
Proof.
  intros Hrun. unfold lifecycle in Hrun.
  destruct (proto_conn_create a w0) as [[C0|] w1|] eqn:Hc; try discriminate.
  assert (pipes_inv (launches (trace w0)) c) as Hinv.
  { apply pipes_inv_created in Hc.
    apply (play_history (fun _ => pipes_inv (launches (trace w0)))
             (fun h C w e => pipes_inv_step _ C w e) evs [] _ _ Hc Hrun). }
  split; [|split; [|split]].
  - destruct c as [C w|w|w]; cbn in Hinv |- *; try lia.
    destruct Hinv as [_ ->]. destruct (is_null (pipe_f C)); lia.
  - intros C w ->. destruct Hinv as [Hinv Hl]. cbn. rewrite Hl.
    unfold conn_inv, pipes_ready in Hinv.
    destruct (pipe_f C), (pipe_r C), (k_f C), (k_r C),
      (Z.eqb_spec (t C) (-1)) as [Et|Et];
      cbn in Hinv |- *; try discriminate;
      repeat split; intros; try congruence; try lia;
      try (intros (? & ? & ?); congruence); tauto.
  - apply launches_connect_done.
  - apply launches_handshake_done.
Qed.

(** The decrypting side: the handshake completes first, then the dial. *)
Lemma pipes_launched_once_witness :
  let a := mk_create_args 3 (Some []) None 1 0 0 0 None 5.0%float
             (fun _ _ => 0) 5 in
  let w0 := mk_world [] 0 (fun n => Some (N.of_nat n)) in
  let evs := [L_handshake_done (Some 20%N) (Some 21%N); L_connect_done 7] in
  exists c,
    lifecycle a w0 evs = Some c
    /\ (launches (trace (world_of c)) <= launches (trace w0) + 1)%nat
    /\ (forall C w, c = Live C w ->
          (pipe_f C <> None <-> pipe_r C <> None)
          /\ (pipe_f C <> None <->
              t C <> -1 /\ k_f C <> None /\ k_r C <> None)
          /\ (pipe_f C <> None <->
              launches (trace w) = (launches (trace w0) + 1)%nat)
          /\ (pipe_f C = None <-> launches (trace w) = launches (trace w0))).
Proof.
  intros a w0 evs.
  destruct (lifecycle a w0 evs) as [c|] eqn:E;
    [|vm_compute in E; discriminate E].
  exists c. split; [reflexivity|].
  destruct (pipes_launched_once a w0 evs c E) as (H1 & H2 & _).
  split; assumption.
Defined.

Example pipes_launched_once_run :
  let a := mk_create_args 3 (Some []) None 1 0 0 0 None 5.0%float
             (fun _ _ => 0) 5 in
  let w0 := mk_world [] 0 (fun n => Some (N.of_nat n)) in
  option_map (fun c => trace (world_of c))
    (lifecycle a w0 [L_handshake_done (Some 20%N) (Some 21%N); L_connect_done 7])
  = Some
      [Ev_malloc OBJ_conn_state (Some 0%N);
       Ev_events_timer_register_double CB_connect_timeout 5.0%float (Some 1%N);
       Ev_network_connect_bind (Some []) None CB_connect_done (Some 2%N);
       Ev_events_timer_register_double CB_handshake_timeout 5.0%float (Some 3%N);
       Ev_proto_handshake 3 1 0 0 None CB_handshake_done (Some 4%N);
       Ev_events_timer_cancel (Some 3%N);
       Ev_sock_addr_freelist (Some []);
       Ev_events_timer_cancel (Some 1%N);
       Ev_setsockopt 3 SO_KEEPALIVE 1; Ev_setsockopt 7 SO_KEEPALIVE 1;
       Ev_setsockopt 3 TCP_NODELAY 1; Ev_setsockopt 7 TCP_NODELAY 1;
       Ev_proto_pipe 3 7 1 (Some 20%N) STAT_F CB_pipestatus (Some 5%N);
       Ev_proto_pipe 7 3 0 (Some 21%N) STAT_R CB_pipestatus (Some 6%N)].
Proof. vm_compute. reflexivity. Qed.

(** ** Where the handshake starts *)

Lemma dialed_snoc h e : dialed (h ++ [e]) = dialed h ++ dialed_socket e.
Proof. unfold dialed. rewrite flat_map_app. cbn. now rewrite app_nil_r. Qed.

Lemma encr_inv_step starts0 socks0 h C w e :
  encr_inv starts0 socks0 h (Live C w) -> enabled e C = true ->
  encr_inv starts0 socks0 (h ++ [e]) (settle (dispatch e C w)).
Proof.
  intros (Hs & Hlen & Hd & Hsock & Hpend) En.
  destruct w as [tr n orc].
  destruct C as [cd ck sa de np rp nk KK ti ss tt pc ctc hc htc kf kr pf pr sf sr].
  unfold enabled in En. unfold encr_inv. rewrite dialed_snoc.
  reduce_conn. subst.
  destruct pc as [pc|];
    [specialize (Hpend eq_refl); rewrite Hpend in * | clear Hpend];
    (destruct e as [fd| |f r| |[|] st]; unfold dialed_socket;
     eval_callback; repeat eval_step; count_trace;
     rewrite ?app_nil_r in *; cbn [List.length app] in *;
     rewrite ?Nat.add_0_r in *;
     repeat split; auto; try lia; try (intro; discriminate);
     try (rewrite Hsock; now rewrite ?app_nil_r);
     try (left; rewrite Hsock; now rewrite ?app_nil_r);
     try (right; rewrite Hsock; now rewrite ?app_nil_r)).
Qed.

Lemma encr_inv_created a w0 C w :
  a_decr a = 0 ->
  proto_conn_create a w0 = Done (Some C) w ->
  encr_inv (handshake_starts (trace w0)) (handshake_sockets (trace w0)) []
    (Live C w).
Proof.
  intros Hd H. apply proto_conn_create_success in H.
  destruct w0 as [tr n orc].
  destruct H as (p & ct & cc & [(Ed & -> & ->) | (Ed & _)]).
  - unfold encr_inv, created. reduce_conn.
    rewrite handshake_starts_app, handshake_sockets_app.
    change (handshake_starts (dial_calls a (Some p) (Some ct) (Some cc)))
      with 0%nat.
    change (handshake_sockets (dial_calls a (Some p) (Some ct) (Some cc)))
      with (@nil Z).
    cbn. repeat split; auto; try lia; discriminate.
  - rewrite Hd in Ed. discriminate.
Qed.

(** The handshake start inside [callback_connect_done] on the encrypting
    side. *)
Lemma callback_connect_done_starts C fd w :
  decr C = 0 -> fd <> -1 ->
  handshake_starts (trace (after (callback_connect_done C fd w)))
  = (handshake_starts (trace w) + 1)%nat
  /\ handshake_sockets (trace (after (callback_connect_done C fd w)))
     = handshake_sockets (trace w)
       ++ (if is_null (oracle w (calls w)) then [] else [fd]).
Proof.
  intros Hd Hfd. apply Z.eqb_neq in Hfd.
  destruct w as [tr n orc].
  destruct C as [cd ck sa de np rp nk KK ti ss tt pc ctc hc htc kf kr pf pr sf sr].
  reduce_conn. subst de.
  eval_callback; rewrite Hfd; reduce_conn;
    repeat eval_step; count_trace; rewrite ?app_nil_r; split; try lia;
    reflexivity.
Qed.

(** C3.  When [decr] is non-zero a successful [proto_conn_create] has
    issued the dial and then started the handshake on [s], and returns with
    both pending.  When [decr] is zero, over every run of the connection
    there is one handshake start per successful dial completion (so none
    before it, and at most one), the socket handed to the handshake is the
    dialed one, and that start is made by [callback_connect_done] itself
    on the socket it was given. *)
Theorem handshake_start_side (a : create_args) (w0 : world) :
  (a_decr a <> 0 ->
   forall C w, proto_conn_create a w0 = Done (Some C) w ->
     exists p ct cc th hh,
       w = mk_world
             (trace w0 ++ dial_calls a (Some p) (Some ct) (Some cc)
              ++ handshake_calls a (a_s a) (Some th) (Some hh))
             (5 + calls w0) (oracle w0)
       /\ connect_cookie C = Some cc /\ handshake_cookie C = Some hh
       /\ t C = -1)
  /\ (a_decr a = 0 ->
      forall evs c, lifecycle a w0 evs = Some c ->
        handshake_starts (trace (world_of c))
        = (handshake_starts (trace w0) + List.length (dialed evs))%nat
        /\ (List.length (dialed evs) <= 1)%nat
        /\ (handshake_sockets (trace (world_of c))
            = handshake_sockets (trace w0) ++ dialed evs
            \/ (handshake_sockets (trace (world_of c))
                = handshake_sockets (trace w0)
                /\ forall C w, c <> Live C w)))
  /\ (forall C fd w, decr C = 0 -> fd <> -1 ->
        handshake_starts (trace (after (callback_connect_done C fd w)))
        = (handshake_starts (trace w) + 1)%nat
        /\ handshake_sockets (trace (after (callback_connect_done C fd w)))
           = handshake_sockets (trace w)
             ++ (if is_null (oracle w (calls w)) then [] else [fd])).
Proof.
  split; [|split].
  - intros Hd C w H. apply proto_conn_create_success in H.
    destruct H as (p & ct & cc & [(Ed & _) | (Ed & th & hh & -> & ->)]).
    + apply Z.eqb_eq in Ed. contradiction.
    + exists p, ct, cc, th, hh. repeat split.
  - intros Hd evs c Hrun. unfold lifecycle in Hrun.
    destruct (proto_conn_create a w0) as [[C0|] w1|] eqn:Hc; try discriminate.
    apply (encr_inv_created a w0 C0 w1 Hd) in Hc.
    pose proof (play_history
                  (encr_inv (handshake_starts (trace w0))
                     (handshake_sockets (trace w0)))
                  (encr_inv_step _ _) evs [] _ _ Hc Hrun) as Hinv.
    cbn [app] in Hinv. destruct Hinv as (Hs & Hlen & Hrest).
    split; [exact Hs|]. split; [exact Hlen|].
    destruct c as [C w|w|w]; cbn in Hrest |- *.
    + left. apply Hrest.
    + destruct Hrest as [Hr|Hr]; [left; exact Hr|right].
      split; [exact Hr | discriminate].
    + destruct Hrest as [Hr|Hr]; [left; exact Hr|right].
      split; [exact Hr | discriminate].
  - apply callback_connect_done_starts.
Qed.

(** Both sides: decrypting, create starts the handshake on [s] = 3;
    encrypting, the dial completes on 9 and the handshake starts there. *)
Lemma handshake_start_side_witness :
  let w0 := mk_world [] 0 (fun n => Some (N.of_nat n)) in
  let a1 := mk_create_args 3 (Some []) None 1 0 0 0 None 5.0%float
              (fun _ _ => 0) 5 in
  let a0 := mk_create_args 3 (Some []) None 0 0 0 0 None 5.0%float
              (fun _ _ => 0) 5 in
  (exists C w p ct cc th hh,
      proto_conn_create a1 w0 = Done (Some C) w
      /\ w = mk_world
               (trace w0 ++ dial_calls a1 (Some p) (Some ct) (Some cc)
                ++ handshake_calls a1 3 (Some th) (Some hh))
               (5 + calls w0) (oracle w0)
      /\ connect_cookie C = Some cc /\ handshake_cookie C = Some hh
      /\ t C = -1)
  /\ (exists c,
        lifecycle a0 w0 [L_connect_done 9] = Some c
        /\ handshake_starts (trace (world_of c)) = 1%nat
        /\ (handshake_sockets (trace (world_of c)) = [9]
            \/ (handshake_sockets (trace (world_of c)) = []
                /\ forall C w, c <> Live C w))).
Proof.
  intros w0 a1 a0. split.
  - destruct (proto_conn_create a1 w0) as [[C|] w|] eqn:E;
      [|vm_compute in E; discriminate E|vm_compute in E; discriminate E].
    exists C, w.
    destruct (proj1 (handshake_start_side a1 w0) ltac:(discriminate) C w E)
      as (p & ct & cc & th & hh & H).
    exists p, ct, cc, th, hh. split; [reflexivity | exact H].
  - destruct (lifecycle a0 w0 [L_connect_done 9]) as [c|] eqn:E;
      [|vm_compute in E; discriminate E].
    exists c. split; [reflexivity|].
    destruct (proj1 (proj2 (handshake_start_side a0 w0)) eq_refl _ c E)
      as (Hs & _ & Hk).
    split; [exact Hs | exact Hk].
Defined.

Example handshake_start_encrypting_run :
  let a := mk_create_args 3 (Some []) None 0 0 0 0 None 5.0%float
             (fun _ _ => 0) 5 in
  let w0 := mk_world [] 0 (fun n => Some (N.of_nat n)) in
  trace (after (proto_conn_create a w0))
  = [Ev_malloc OBJ_conn_state (Some 0%N);
     Ev_events_timer_register_double CB_connect_timeout 5.0%float (Some 1%N);
     Ev_network_connect_bind (Some []) None CB_connect_done (Some 2%N)]
  /\ option_map (fun c => trace (world_of c))
       (lifecycle a w0 [L_connect_done 9; L_handshake_done (Some 20%N) (Some 21%N)])
     = Some
         [Ev_malloc OBJ_conn_state (Some 0%N);
          Ev_events_timer_register_double CB_connect_timeout 5.0%float (Some 1%N);
          Ev_network_connect_bind (Some []) None CB_connect_done (Some 2%N);
          Ev_sock_addr_freelist (Some []);
          Ev_events_timer_cancel (Some 1%N);
          Ev_events_timer_register_double CB_handshake_timeout 5.0%float (Some 3%N);
          Ev_proto_handshake 9 0 0 0 None CB_handshake_done (Some 4%N);
          Ev_events_timer_cancel (Some 3%N);
          Ev_setsockopt 3 SO_KEEPALIVE 1; Ev_setsockopt 9 SO_KEEPALIVE 1;
          Ev_setsockopt 3 TCP_NODELAY 1; Ev_setsockopt 9 TCP_NODELAY 1;
          Ev_proto_pipe 3 9 0 (Some 20%N) STAT_F CB_pipestatus (Some 5%N);
          Ev_proto_pipe 9 3 1 (Some 21%N) STAT_R CB_pipestatus (Some 6%N)].
Proof. split; vm_compute; reflexivity. Qed.

(** ** What a connection keeps over a run *)

Arguments collect : simpl never.

Lemma collect_app {A} (f : event -> list A) a b :
  collect f (a ++ b) = collect f a ++ collect f b.
Proof. apply flat_map_app. Qed.

Lemma collect_snoc {A} (f : event -> list A) l e :
  collect f (l ++ [e]) = collect f l ++ f e.
Proof. rewrite collect_app. unfold collect at 2. cbn. now rewrite app_nil_r. Qed.

Ltac teardown_cases C :=
  unfold teardown, when_present;
  destruct (t C =? -1), (connect_cookie C), (handshake_cookie C),
    (connect_timeout_cookie C), (handshake_timeout_cookie C),
    (pipe_f C), (pipe_r C), (sas C), (k_f C), (k_r C); reflexivity.

Lemma closed_teardown C why :
  collect closed_fd (teardown C why)
  = s C :: (if t C =? -1 then [] else [t C]).
Proof. teardown_cases C. Qed.

Lemma state_free_teardown C why : collect state_free (teardown C why) = [tt].
Proof. teardown_cases C. Qed.

Lemma released_teardown C why :
  collect released_list (teardown C why) = opt_list (sas C).
Proof. teardown_cases C. Qed.

Lemma freed_key_teardown C why :
  collect freed_key (teardown C why) = opt_list (k_f C) ++ opt_list (k_r C).
Proof. teardown_cases C. Qed.

Lemma registered_teardown k C why :
  collect (registered k) (teardown C why) = [].
Proof. destruct k; teardown_cases C. Qed.

Lemma cancelled_teardown k C why :
  collect (cancelled k) (teardown C why) = pending k C.
Proof. destruct k; unfold pending, held; teardown_cases C. Qed.

Lemma null_cancel_teardown C why :
  collect null_cancel (teardown C why) = [].
Proof. teardown_cases C. Qed.

Ltac split_bools H :=
  repeat (apply andb_prop in H; let H' := fresh "Hb" in destruct H as [H H']).

Lemma state_inv_step a C w e :
  state_inv a C -> enabled e C = true ->
  match settle (dispatch e C w) with
  | Live C' _ => state_inv a C'
  | _ => True
  end.
Proof.
  intros (Hs & Hd & Hsas & Hb) En. destruct w as [tr n orc].
  destruct C as [cd ck sa de np rp nk KK ti ss tt pc ctc hc htc kf kr pf pr sf sr].
  unfold enabled in En. unfold pipes_ready in Hb. reduce_conn.
  split_bools Hb.
  destruct e as [fd| |f r| |[|] st]; eval_callback;
    repeat eval_step; try exact I;
    unfold state_inv, pipes_ready; use_eqns; reduce_conn;
    decide_fields;
    repeat split; try assumption; try reflexivity; try congruence.
Qed.

Lemma delivered_snoc h e : delivered (h ++ [e]) = delivered h ++ delivered_keys e.
Proof. unfold delivered. rewrite flat_map_app. cbn. now rewrite app_nil_r. Qed.

Lemma completed_snoc k h e : completed k (h ++ [e]) = completed k h ++ completes k e.
Proof. unfold completed. rewrite flat_map_app. cbn. now rewrite app_nil_r. Qed.

Lemma death_teardown C why : collect death (teardown C why) = [why].
Proof. apply deaths_teardown. Qed.

Lemma collect_cons {A} (f : event -> list A) e l :
  collect f (e :: l) = f e ++ collect f l.
Proof. reflexivity. Qed.

Lemma collect_nil {A} (f : event -> list A) : collect f [] = [].
Proof. reflexivity. Qed.

(** Bring every reader of a trace down to the trace it extends. *)
Ltac read_trace :=
  change deaths with (collect death) in *;
  rewrite ?collect_app, ?collect_cons, ?collect_nil, ?death_teardown,
    ?closed_teardown, ?state_free_teardown, ?released_teardown,
    ?freed_key_teardown, ?registered_teardown, ?cancelled_teardown,
    ?null_cancel_teardown;
  cbn [death closed_fd state_free released_list freed_key opt_list
       dialed_socket delivered_keys];
  rewrite ?app_nil_r.

Lemma effects_inv_step a w0 h C w e :
  state_inv a C -> effects_inv a w0 h (Live C w) -> enabled e C = true ->
  effects_inv a w0 (h ++ [e]) (settle (dispatch e C w)).
Proof.
  intros (Hs & Hd & Hsas & Hb) (Hde & Hcl & Hfr & Hfk & Hrl & Hdl & Hdv) En.
  destruct w as [tr n orc]. destruct w0 as [tr0 n0 orc0].
  destruct C as [cd ck sa de np rp nk KK ti ss tt pc ctc hc htc kf kr pf pr sf sr].
  unfold enabled in En. unfold pipes_ready in Hb. reduce_conn.
  split_bools Hb. subst sa ss de.
  unfold effects_inv. rewrite dialed_snoc, delivered_snoc.
  destruct (a_sas a) as [l|];
  (destruct e as [fd| |f r| |[|] st]; eval_callback;
    repeat eval_step; reduce_conn; read_trace; reduce_conn; use_eqns;
    rewrite ?Hde, ?Hcl, ?Hfr, ?Hfk, ?Hrl, ?Hdl, ?Hdv;
    decide_fields; cbn [opt_list];
    rewrite ?app_nil_r, <- ?app_assoc; cbn [app List.length];
    repeat split; eauto; try lia).

Qed.

Lemma account_inv_step a w0 h C w e :
  state_inv a C -> account_inv w0 h (Live C w) -> enabled e C = true ->
  account_inv w0 (h ++ [e]) (settle (dispatch e C w)).
Proof.
  intros (Hs & Hd & Hsas & Hb) (Hnull & Hacc) En.
  destruct w as [tr n orc]. destruct w0 as [tr0 n0 orc0].
  destruct C as [cd ck sa de np rp nk KK ti ss tt pc ctc hc htc kf kr pf pr sf sr].
  unfold enabled in En. unfold pipes_ready in Hb. reduce_conn.
  split_bools Hb. clear Hs Hd Hsas.
  pose proof (Hacc OP_timer) as Ht. pose proof (Hacc OP_connect) as Hc.
  pose proof (Hacc OP_handshake) as Hh. pose proof (Hacc OP_pipe) as Hp.
  clear Hacc. unfold pending, held in Ht, Hc, Hh, Hp. reduce_conn.
  unfold account_inv.
  destruct e as [fd| |f r| |[|] st]; eval_callback;
    repeat eval_step; try exact I;
    (split; [| intros k; rewrite completed_snoc; destruct k]);
    read_trace; unfold pending, held; reduce_conn;
    cbn [null_cancel registered cancelled registration cancellation
         flat_map app fst snd op_kind_eqb is_null completes];
    rewrite ?app_nil_r, ?length_app in *; cbn [List.length] in *;
    decide_fields; cbn [List.length app] in *; rewrite ?app_nil_r;
    try assumption; try lia.
Qed.

Lemma run_inv_created a w0 C w :
  proto_conn_create a w0 = Done (Some C) w ->
  run_inv a w0 [] (Live C w).
Proof.
  intros H. apply proto_conn_create_success in H.
  destruct w0 as [tr0 n0 orc0].
  destruct H as (p & ct & cc & [(Ed & -> & ->) | (Ed & th & hh & -> & ->)]);
    unfold run_inv, state_inv, effects_inv, account_inv, pipes_ready, created,
      dial_calls, handshake_calls; reduce_conn; rewrite ?Ed; reduce_conn;
    change (-1 =? -1) with true; cbn [negb andb orb Bool.eqb];
    (split; [repeat split|]);
    (split; [read_trace; repeat split; rewrite ?app_nil_r; reflexivity|]);
    (split; [read_trace; rewrite ?app_nil_r; reflexivity|]);
    intros k; destruct k; read_trace;
    rewrite ?app_nil_r, ?length_app; cbn; lia.
Qed.

Lemma run_inv_step a w0 h C w e :
  run_inv a w0 h (Live C w) -> enabled e C = true ->
  run_inv a w0 (h ++ [e]) (settle (dispatch e C w)).
Proof.
  intros (Hst & Hef & Hac) En. split; [|split].
  - apply (state_inv_step a C w e Hst En).
  - now apply effects_inv_step.
  - now apply account_inv_step with (a := a).
Qed.

Lemma run_inv_lifecycle a w0 evs c :
  lifecycle a w0 evs = Some c -> run_inv a w0 evs c.
Proof.
  intros Hrun. unfold lifecycle in Hrun.
  destruct (proto_conn_create a w0) as [[C0|] w1|] eqn:Hc; try discriminate.
  apply run_inv_created in Hc.
  exact (play_history (run_inv a w0) (run_inv_step a w0) evs [] _ _ Hc Hrun).
Qed.

(** ** Runs of a connection, from creation to drop *)

(** X1.  Between loop turns a live connection keeps its fields paired:
    [s] and [decr] are those given at creation; the dial and its timer are
    pending together, and so are the handshake and its timer; the dial is
    pending exactly while [t] is -1; the address list is held exactly while
    the dial is pending; the keys come as a pair and only once the
    handshake is over; and a handshake has been started exactly when the
    connection decrypts or the dial has succeeded. *)
Theorem live_state_invariants (a : create_args) (w0 : world)
    (evs : list loop_event) (C : conn_state) (w : world) :
  lifecycle a w0 evs = Some (Live C w) ->
  s C = a_s a
  /\ decr C = a_decr a
  /\ (connect_cookie C <> None <-> connect_timeout_cookie C <> None)
  /\ (handshake_cookie C <> None <-> handshake_timeout_cookie C <> None)
  /\ (connect_cookie C <> None <-> t C = -1)
  /\ (connect_cookie C <> None -> sas C = a_sas a)
  /\ (t C <> -1 -> sas C = None)
  /\ (k_f C <> None <-> k_r C <> None)
  /\ (k_f C <> None -> handshake_cookie C = None)
  /\ (handshake_cookie C <> None \/ k_f C <> None <-> decr C <> 0 \/ t C <> -1).
Proof.
  intros Hrun. apply run_inv_lifecycle in Hrun.
  destruct Hrun as ((Hs & Hd & Hsas & Hb) & _ & _).
  split; [exact Hs|]. split; [exact Hd|].
  unfold pipes_ready in Hb.
  destruct (connect_cookie C), (connect_timeout_cookie C),
    (handshake_cookie C), (handshake_timeout_cookie C), (k_f C), (k_r C),
    (pipe_f C), (pipe_r C),
    (Z.eqb_spec (t C) (-1)) as [Et|Et], (Z.eqb_spec (decr C) 0) as [Ed|Ed];
    cbn in Hb, Hsas; try discriminate Hb;
    repeat split; intros; try congruence; try tauto;
    try (left; congruence); try (right; congruence).
Qed.

Lemma live_state_invariants_witness :
  let a := mk_create_args 3 (Some []) None 1 0 0 0 None 5.0%float
             (fun _ _ => 0) 5 in
  let w0 := mk_world [] 0 (fun n => Some (N.of_nat n)) in
  exists C w,
    lifecycle a w0 [L_connect_done 7] = Some (Live C w)
    /\ s C = 3 /\ t C = 7 /\ sas C = None
    /\ (handshake_cookie C <> None <-> handshake_timeout_cookie C <> None).
Proof.
  intros a w0.
  destruct (lifecycle a w0 [L_connect_done 7]) as [[C w|w|w]|] eqn:E;
    try (vm_compute in E; discriminate E).
  exists C, w. split; [reflexivity|].
  destruct (live_state_invariants a w0 _ C w E)
    as (Hs & _ & _ & Hh & Hc & _ & Hsas & _).
  assert (t C = 7) as Ht by (vm_compute in E; injection E as <- _; reflexivity).
  repeat split; try assumption; try apply Hh.
  apply Hsas. rewrite Ht. discriminate.
Defined.

(** X2.  Over any run of loop events a connection is dropped at most once,
    and a drop is thorough: when the run ends with the connection gone, the
    death callback has been invoked exactly once, the state freed exactly
    once, and the descriptors closed are exactly [s] followed by the dialed
    socket if there is one; while the connection lives nothing of this has
    happened. *)
Theorem drop_exactly_once (a : create_args) (w0 : world)
    (evs : list loop_event) (c : config) :
  lifecycle a w0 evs = Some c ->
  match c with
  | Dead w =>
    (exists why, deaths (trace w) = deaths (trace w0) ++ [why])
    /\ collect closed_fd (trace w)
       = collect closed_fd (trace w0) ++ a_s a :: dialed evs
    /\ (List.length (dialed evs) <= 1)%nat
    /\ collect state_free (trace w) = collect state_free (trace w0) ++ [tt]
  | Live _ w | Crashed w =>
    deaths (trace w) = deaths (trace w0)
    /\ collect closed_fd (trace w) = collect closed_fd (trace w0)
    /\ collect state_free (trace w) = collect state_free (trace w0)
  end.
Proof.
  intros Hrun. apply run_inv_lifecycle in Hrun.
  destruct Hrun as (_ & Hef & _).
  destruct c as [C w|w|w]; cbn in Hef |- *; intuition.
Qed.

Lemma drop_exactly_once_witness :
  let a := mk_create_args 3 (Some []) None 1 0 0 0 None 5.0%float
             (fun _ _ => 0) 5 in
  let w0 := mk_world [] 0 (fun n => Some (N.of_nat n)) in
  let evs := [L_connect_done 7; L_handshake_done (Some 20%N) (Some 21%N);
              L_pipe_status STAT_F 0; L_pipe_status STAT_R 0] in
  exists w,
    lifecycle a w0 evs = Some (Dead w)
    /\ (exists why, deaths (trace w) = [] ++ [why])
    /\ collect closed_fd (trace w) = [] ++ [3; 7].
Proof.
  intros a w0 evs.
  destruct (lifecycle a w0 evs) as [[C w|w|w]|] eqn:E;
    try (vm_compute in E; discriminate E).
  exists w. split; [reflexivity|].
  destruct (drop_exactly_once a w0 evs (Dead w) E) as (Hd & Hc & _).
  split; [exact Hd | exact Hc].
Defined.

(** X3.  Keys and addresses are released exactly once: while the connection
    lives no key has been released and the keys delivered are those in the
    state, and the address list has been released exactly when the dial is
    over; once the connection is gone, the keys released are exactly the
    keys the handshake delivered and the address list has been released
    exactly once. *)
Theorem owned_resources_released (a : create_args) (w0 : world)
    (evs : list loop_event) (c : config) :
  lifecycle a w0 evs = Some c ->
  match c with
  | Live C w =>
    collect freed_key (trace w) = collect freed_key (trace w0)
    /\ delivered evs = opt_list (k_f C) ++ opt_list (k_r C)
    /\ collect released_list (trace w)
       = collect released_list (trace w0)
         ++ (if is_null (connect_cookie C) then opt_list (a_sas a) else [])
  | Dead w =>
    collect freed_key (trace w) = collect freed_key (trace w0) ++ delivered evs
    /\ collect released_list (trace w)
       = collect released_list (trace w0) ++ opt_list (a_sas a)
  | Crashed w => True
  end.
Proof.
  intros Hrun. apply run_inv_lifecycle in Hrun.
  destruct Hrun as (_ & Hef & _).
  destruct c as [C w|w|w]; cbn in Hef |- *; intuition.
Qed.

Lemma owned_resources_released_witness :
  let sa := mk_sock_addr 2 1 [] 0 in
  let a := mk_create_args 3 (Some [sa]) None 1 0 0 0 None 5.0%float
             (fun _ _ => 0) 5 in
  let w0 := mk_world [] 0 (fun n => Some (N.of_nat n)) in
  let evs := [L_handshake_done (Some 20%N) (Some 21%N); L_connect_timeout] in
  exists w,
    lifecycle a w0 evs = Some (Dead w)
    /\ collect freed_key (trace w) = [] ++ [20%N; 21%N]
    /\ collect released_list (trace w) = [] ++ [[sa]].
Proof.
  intros sa a w0 evs.
  destruct (lifecycle a w0 evs) as [[C w|w|w]|] eqn:E;
    try (vm_compute in E; discriminate E).
  exists w. split; [reflexivity|].
  exact (owned_resources_released a w0 evs (Dead w) E).
Defined.

(** X4.  No pending operation is lost or cancelled twice: for each kind of
    operation (timer, dial, handshake, pipe) the operations registered
    since creation are those cancelled, those that completed and those
    still pending in the state, by count; after a drop none is pending; and
    no cancellation is ever handed NULL. *)
Theorem operations_accounted (a : create_args) (w0 : world)
    (evs : list loop_event) (c : config) :
  lifecycle a w0 evs = Some c ->
  match c with
  | Live C w =>
    collect null_cancel (trace w) = collect null_cancel (trace w0)
    /\ forall k,
        (List.length (collect (registered k) (trace w))
         + List.length (collect (cancelled k) (trace w0))
         = List.length (collect (registered k) (trace w0))
           + List.length (collect (cancelled k) (trace w))
           + List.length (completed k evs)
           + List.length (pending k C))%nat
  | Dead w =>
    collect null_cancel (trace w) = collect null_cancel (trace w0)
    /\ forall k,
        (List.length (collect (registered k) (trace w))
         + List.length (collect (cancelled k) (trace w0))
         = List.length (collect (registered k) (trace w0))
           + List.length (collect (cancelled k) (trace w))
           + List.length (completed k evs))%nat
  | Crashed w => True
  end.
Proof.
  intros Hrun. apply run_inv_lifecycle in Hrun.
  destruct Hrun as (_ & _ & Hac). exact Hac.
Qed.

Lemma operations_accounted_witness :
  let a := mk_create_args 3 (Some []) None 1 0 0 0 None 5.0%float
             (fun _ _ => 0) 5 in
  let w0 := mk_world [] 0
              (fun n => if (n <? 6)%nat then Some (N.of_nat n) else None) in
  let evs := [L_connect_done 7; L_handshake_done (Some 20%N) (Some 21%N)] in
  exists w,
    lifecycle a w0 evs = Some (Dead w)
    /\ collect null_cancel (trace w) = []
    /\ (List.length (collect (registered OP_pipe) (trace w)) + 0
        = 0 + List.length (collect (cancelled OP_pipe) (trace w)) + 0)%nat.
Proof.
  intros a w0 evs.
  destruct (lifecycle a w0 evs) as [[C w|w|w]|] eqn:E;
    try (vm_compute in E; discriminate E).
  exists w. split; [reflexivity|].
  destruct (operations_accounted a w0 evs (Dead w) E) as [Hn Hk].
  split; [exact Hn | exact (Hk OP_pipe)].
Defined.

(** X5.  One callback invokes the death callback at most once, and the
    reason it gives is fixed by the event: CONNECT_FAILED for a dial that
    failed, HANDSHAKE_FAILED for a handshake that delivered no keys, CLOSED
    for a status change that leaves both directions closed without error,
    and ERROR for everything else (timeouts, a pipe error, a handshake or
    pipes that could not be started). *)
Theorem drop_reason_of_event (e : loop_event) (C : conn_state) (w : world) :
  match settle (dispatch e C w) with
  | Dead w' => deaths (trace w') = deaths (trace w) ++ [drop_reason e C]
  | Live _ w' => deaths (trace w') = deaths (trace w)
  | Crashed w' => deaths (trace w') = deaths (trace w)
  end.
Proof.
  destruct w as [tr n orc].
  destruct C as [cd ck sa de np rp nk KK ti ss tt pc ctc hc htc kf kr pf pr sf sr].
  unfold drop_reason.
  destruct e as [fd| |f r| |[|] st]; eval_callback;
    repeat eval_step; reduce_conn; read_trace; reduce_conn; use_eqns;
    rewrite ?app_nil_r; try reflexivity.

Qed.

(** With an oracle that never answers NULL, decide the next answer. *)
Ltac oracle_some Hall :=
  match goal with
  | |- context [is_null (?o ?n)] =>
    let E := fresh "E" in
    destruct (o n) eqn:E; [|exfalso; exact (Hall n E)];
    rewrite ?E in *; reduce_conn
  end.

Lemma proto_conn_create_never_null a w0 :
  (forall n, oracle w0 n <> None) ->
  exists C w, proto_conn_create a w0 = Done (Some C) w.
Proof.
  intros Hall.
  destruct (proto_conn_create_outcome a w0) as (r & evs & n & Hrun & Hok & _).
  destruct (Hok (Hall _)) as [Hiff _].
  destruct r as [C|]; [eauto|].
  exfalso. destruct Hiff as [Hiff _]. specialize (Hiff eq_refl).
  unfold setup_failure in Hiff.
  destruct (oracle w0 (1 + calls w0)) eqn:E1; [|exact (Hall _ E1)].
  destruct (oracle w0 (2 + calls w0)) eqn:E2; [|exact (Hall _ E2)].
  destruct (oracle w0 (3 + calls w0)) eqn:E3; [|exact (Hall _ E3)].
  destruct (oracle w0 (4 + calls w0)) eqn:E4; [|exact (Hall _ E4)].
  cbn in Hiff. rewrite andb_false_r in Hiff. discriminate.
Qed.

(** Evaluate the loop events of a run whose oracle never fails. *)
Ltac play_events Hall :=
  cbn [play]; unfold enabled; reduce_conn;
  eval_callback; use_eqns; reduce_conn;
  repeat first
    [ oracle_some Hall
    | match goal with
      | |- context [?x =? ?y] =>
        let E := fresh "E" in
        destruct (x =? y) eqn:E; rewrite ?E in *; reduce_conn; prune
      end ].

(** An event at the end of a trace that was extended call by call. *)
Ltac in_snoc :=
  apply in_or_app; first [right; left; reflexivity | left; in_snoc].

Ltac show_piping Ed :=
  eexists; split; [reflexivity|];
  unfold piping; eexists _, _, _, _; split; [reflexivity|];
  reduce_conn; use_eqns; repeat split; in_snoc.

(** X6.  When nothing fails, the dial and the handshake may complete in
    either order on the decrypting side and end in the same piping state:
    both sockets connected, both keys held, the two pipes created, nothing
    pending and the address list released.  On the encrypting side the
    handshake cannot complete before the dial, since it is only started by
    the dial's completion. *)
Theorem dial_and_handshake_join (a : create_args) (w0 : world) (fd : Z)
    (f r : handle) :
  (forall n, oracle w0 n <> None) ->
  fd <> -1 ->
  (exists c,
      lifecycle a w0 [L_connect_done fd; L_handshake_done (Some f) (Some r)]
      = Some c
      /\ piping a fd f r c)
  /\ (a_decr a <> 0 ->
      exists c,
        lifecycle a w0 [L_handshake_done (Some f) (Some r); L_connect_done fd]
        = Some c
        /\ piping a fd f r c)
  /\ (a_decr a = 0 ->
      lifecycle a w0 [L_handshake_done (Some f) (Some r); L_connect_done fd]
      = None).
Proof.
  intros Hall Hfd. apply Z.eqb_neq in Hfd.
  destruct (proto_conn_create_never_null a w0 Hall) as (C0 & w1 & Hc).
  unfold lifecycle. rewrite Hc.
  apply proto_conn_create_success in Hc.
  destruct w0 as [tr n orc]. cbn [oracle trace calls] in *.
  destruct Hc as (p & ct & cc & [(Ed & -> & ->) | (Ed & th & hh & -> & ->)]);
    unfold created, dial_calls, handshake_calls.
  - split; [|split].
    + play_events Hall; show_piping Ed.
    + intros Hd. apply Z.eqb_eq in Ed. contradiction.
    + intros _. reflexivity.
  - split; [|split].
    + play_events Hall; show_piping Ed.
    + intros _. play_events Hall; show_piping Ed.
    + intros Hd. apply Z.eqb_neq in Ed. contradiction.
Qed.

Lemma dial_and_handshake_join_witness :
  let a := mk_create_args 3 (Some []) None 1 0 0 0 None 5.0%float
             (fun _ _ => 0) 5 in
  let w0 := mk_world [] 0 (fun n => Some (N.of_nat n)) in
  (exists c,
      lifecycle a w0 [L_connect_done 7; L_handshake_done (Some 20%N) (Some 21%N)]
      = Some c
      /\ piping a 7 20%N 21%N c)
  /\ (exists c,
      lifecycle a w0 [L_handshake_done (Some 20%N) (Some 21%N); L_connect_done 7]
      = Some c
      /\ piping a 7 20%N 21%N c).
Proof.
  intros a w0.
  destruct (dial_and_handshake_join a w0 7 20%N 21%N) as (H1 & H2 & _).
  - intros n. discriminate.
  - discriminate.
  - split; [exact H1 | apply H2; discriminate].
Defined.

(** ** starthandshake and launchpipes on their own *)

(** X7.  [starthandshake] is all or nothing: it returns 0 with the timer
    and the handshake both registered, in that order, on the socket it was
    given and with nothing cancelled; or it returns -1 with the timer
    handle cleared in the state and every registration it made cancelled
    again (never cancelling NULL).  It touches no field but the two
    handshake handles. *)
Theorem starthandshake_all_or_nothing (C : conn_state) (sock dec : Z)
    (w : world) :
  exists rc C' w' evs,
    starthandshake C sock dec w = Done (rc, C') w'
    /\ trace w' = trace w ++ evs
    /\ C' = set_handshake_cookie
              (set_handshake_timeout_cookie C (handshake_timeout_cookie C'))
              (handshake_cookie C')
    /\ ((rc = 0
         /\ handshake_timeout_cookie C' <> None
         /\ handshake_cookie C' <> None
         /\ map as_cancelled (registrations evs)
            = [(OP_timer, handshake_timeout_cookie C');
               (OP_handshake, handshake_cookie C')]
         /\ cancellations evs = []
         /\ handshake_sockets evs = [sock])
        \/ (rc = -1
            /\ handshake_timeout_cookie C' = None
            /\ (handshake_cookie C = None -> handshake_cookie C' = None)
            /\ cancellations evs = map as_cancelled (registrations evs)
            /\ collect null_cancel evs = [])).
Proof.
  destruct w as [tr n orc].
  destruct C as [cd ck sa de np rp nk KK ti ss tt pc ctc hc htc kf kr pf pr sf sr].
  unfold starthandshake. unfold_prims. unfold bind, fresh, emit, ret.
  reduce_conn.
  destruct (orc n) as [th|] eqn:E1; reduce_conn.
  - destruct (orc (S n)) as [hh|] eqn:E2; reduce_conn.
    + exists 0. eexists. eexists. eexists.
      split; [reflexivity|]. cbn [trace]. rewrite <- app_assoc.
      split; [reflexivity|]. reduce_conn. split; [reflexivity|].
      left. repeat split; discriminate.
    + exists (-1). eexists. eexists. eexists.
      split; [reflexivity|]. cbn [trace]. rewrite <- !app_assoc.
      split; [reflexivity|]. reduce_conn. split; [reflexivity|].
      right. repeat split.
  - exists (-1). eexists. eexists. eexists.
    split; [reflexivity|]. cbn [trace].
    split; [reflexivity|]. reduce_conn. split; [reflexivity|].
    right. repeat split. intros H. exact H.
Qed.

(** X8.  [launchpipes] sets SO_KEEPALIVE (on unless [nokeepalive]) and
    TCP_NODELAY (on) on [s] and [t] before creating any pipe; it returns 0
    exactly when both pipes were created; the reverse pipe is not attempted
    when the forward one fails; it cancels nothing itself and changes no
    field but the two pipe handles, which hold exactly the pipes created,
    so that the drop that follows a failure cancels exactly those. *)
Theorem launchpipes_pipes (C : conn_state) (w : world) :
  pipe_f C = None -> pipe_r C = None ->
  exists rc C' w' evs,
    launchpipes C w = Done (rc, C') w'
    /\ trace w' = trace w
                  ++ [Ev_setsockopt (s C) SO_KEEPALIVE
                        (if nokeepalive C =? 0 then 1 else 0);
                      Ev_setsockopt (t C) SO_KEEPALIVE
                        (if nokeepalive C =? 0 then 1 else 0);
                      Ev_setsockopt (s C) TCP_NODELAY 1;
                      Ev_setsockopt (t C) TCP_NODELAY 1]
                  ++ evs
    /\ C' = set_pipe_r (set_pipe_f C (pipe_f C')) (pipe_r C')
    /\ (rc = 0 \/ rc = -1)
    /\ (rc = 0 <-> pipe_f C' <> None /\ pipe_r C' <> None)
    /\ (pipe_f C' = None -> pipe_r C' = None)
    /\ map as_cancelled (registrations evs)
       = map (pair OP_pipe) (held (pipe_f C') ++ held (pipe_r C'))
    /\ cancellations evs = []
    /\ (forall why,
          collect (cancelled OP_pipe) (teardown C' why)
          = map Some (collect (registered OP_pipe) evs)).
Proof.
  intros Hf Hr.
  destruct w as [tr n orc].
  destruct C as [cd ck sa de np rp nk KK ti ss tt pc ctc hc htc kf kr pf pr sf sr].
  cbn [pipe_f pipe_r] in Hf, Hr. subst pf pr.
  unfold launchpipes. unfold_prims. unfold bind, fresh, emit, ret.
  reduce_conn.
  destruct (orc n) as [pf|] eqn:E1; reduce_conn.
  - destruct (orc (S n)) as [pr|] eqn:E2; reduce_conn.
    + exists 0. eexists. eexists. eexists.
      split; [reflexivity|]. cbn [trace]. rewrite <- !app_assoc.
      split; [reflexivity|]. reduce_conn.
      split; [reflexivity|]. split; [now left|].
      split; [split; [intros _; split; discriminate | reflexivity]|].
      split; [discriminate|]. split; [reflexivity|]. split; [reflexivity|].
      intros why. rewrite cancelled_teardown. reflexivity.
    + exists (-1). eexists. eexists. eexists.
      split; [reflexivity|]. cbn [trace]. rewrite <- !app_assoc.
      split; [reflexivity|]. reduce_conn.
      split; [reflexivity|]. split; [now right|].
      split; [split; [discriminate | intros [_ H]; now elim H]|].
      split; [discriminate|]. split; [reflexivity|]. split; [reflexivity|].
      intros why. rewrite cancelled_teardown. reflexivity.
  - exists (-1). eexists. eexists. eexists.
    split; [reflexivity|]. cbn [trace]. rewrite <- !app_assoc.
    split; [reflexivity|]. reduce_conn.
    split; [reflexivity|]. split; [now right|].
    split; [split; [discriminate | intros [H _]; now elim H]|].
    split; [reflexivity|]. split; [reflexivity|]. split; [reflexivity|].
    intros why. rewrite cancelled_teardown. reflexivity.
Qed.

Lemma launchpipes_pipes_witness :
  let C := mk_conn_state (fun _ _ => 0) 5 None 1 0 0 0 None 5.0%float 3 7
             None None None None (Some 20%N) (Some 21%N) None None 1 1 in
  let w := mk_world [] 0
             (fun n => if (n <? 1)%nat then Some (N.of_nat n) else None) in
  exists C' w',
    launchpipes C w = Done (-1, C') w'
    /\ pipe_f C' = Some 0%N /\ pipe_r C' = None
    /\ collect (cancelled OP_pipe) (teardown C' PROTO_CONN_ERROR) = [Some 0%N].
Proof.
  intros C w.
  destruct (launchpipes_pipes C w eq_refl eq_refl)
    as (rc & C' & w' & evs & Hrun & _).
  vm_compute in Hrun. injection Hrun as <- <- <-.
  eexists. eexists. split; [vm_compute; reflexivity|].
  repeat split.
Defined.

(** ** Dropping a live connection from outside *)

(** X17.  [proto_conn_drop] may be called on a live connection at any point
    between two callbacks, and then releases everything exactly once: the
    death callback is invoked once with the given reason, the state is
    freed once, [s] and the dialed socket (if any) are closed, the keys
    delivered so far are released, the address list has been released
    exactly once over the whole life of the connection, every operation
    still pending is cancelled, and no cancellation is handed NULL. *)
Theorem proto_conn_drop_live (a : create_args) (w0 : world)
    (evs : list loop_event) (C : conn_state) (w : world) (why : reason) :
  lifecycle a w0 evs = Some (Live C w) ->
  exists w',
    proto_conn_drop C why w = Done (callback_dead C (cookie C) why) w'
    /\ deaths (trace w') = deaths (trace w0) ++ [why]
    /\ collect closed_fd (trace w')
       = collect closed_fd (trace w0) ++ a_s a :: dialed evs
    /\ collect state_free (trace w') = collect state_free (trace w0) ++ [tt]
    /\ collect freed_key (trace w')
       = collect freed_key (trace w0) ++ delivered evs
    /\ collect released_list (trace w')
       = collect released_list (trace w0) ++ opt_list (a_sas a)
    /\ collect null_cancel (trace w') = collect null_cancel (trace w0)
    /\ forall k,
        (List.length (collect (registered k) (trace w'))
         + List.length (collect (cancelled k) (trace w0))
         = List.length (collect (registered k) (trace w0))
           + List.length (collect (cancelled k) (trace w'))
           + List.length (completed k evs))%nat.
Proof.
  intros Hrun. apply run_inv_lifecycle in Hrun.
  destruct Hrun as ((Hs & Hd & Hsas & Hb) & Hef & Hac).
  cbn [effects_inv account_inv world_of] in Hef, Hac. cbv zeta in Hef.
  destruct Hef as (Hde & Hcl & Hsf & Hfk & Hrl & Hdl & Hdv).
  destruct Hac as [Hnc Hk].
  rewrite proto_conn_drop_run. eexists. split; [reflexivity|].
  unfold push. cbn [trace].
  change deaths with (collect death) in *.
  rewrite !collect_app, death_teardown, closed_teardown, state_free_teardown,
    released_teardown, freed_key_teardown, null_cancel_teardown.
  rewrite Hde, Hcl, Hsf, Hfk, Hrl, Hnc, Hdl, Hdv, Hs, Hsas, app_nil_r.
  split; [reflexivity|].
  split.
  { f_equal. f_equal.
    destruct (connect_cookie C), (Z.eqb_spec (t C) (-1)), (connect_timeout_cookie C),
      (handshake_cookie C), (handshake_timeout_cookie C), (k_f C), (k_r C),
      (pipe_f C), (pipe_r C), (decr C =? 0);
      cbn in Hb; try discriminate Hb; reflexivity. }
  split; [reflexivity|].
  split; [destruct (k_f C), (k_r C); reflexivity|].
  split.
  { rewrite <- app_assoc. f_equal.
    destruct (connect_cookie C); cbn [is_null opt_list app];
      now rewrite ?app_nil_r. }
  split; [reflexivity|].
  intros k. specialize (Hk k).
  rewrite !collect_app, registered_teardown, cancelled_teardown, app_nil_r,
    length_app.
  lia.
Qed.

Lemma proto_conn_drop_live_witness :
  let a := mk_create_args 3 (Some []) None 1 0 0 0 None 5.0%float
             (fun _ _ => 0) 5 in
  let w0 := mk_world [] 0 (fun n => Some (N.of_nat n)) in
  let evs := [L_handshake_done (Some 20%N) (Some 21%N)] in
  exists C w w',
    lifecycle a w0 evs = Some (Live C w)
    /\ proto_conn_drop C PROTO_CONN_CLOSED w = Done 0 w'
    /\ collect freed_key (trace w') = [20%N; 21%N]
    /\ collect closed_fd (trace w') = [3].
Proof.
  intros a w0 evs.
  destruct (lifecycle a w0 evs) as [[C w|w|w]|] eqn:E;
    try (vm_compute in E; discriminate E).
  destruct (proto_conn_drop_live a w0 evs C w PROTO_CONN_CLOSED E)
    as (w' & Hrun & _ & Hcl & _ & Hfk & _).
  exists C, w, w'. split; [reflexivity|].
  split.
  { rewrite Hrun. f_equal. vm_compute in E. injection E as <- _. reflexivity. }
  split; [exact Hfk | exact Hcl].
Defined.

(** ** What a callback returns *)

(** X18.  A callback returns 0 whenever the connection stays alive.  When
    it drops the connection because the dial failed, the handshake
    delivered no keys, a timer fired or the pipes stopped, it returns what
    the upstream's death callback returned; when it drops the connection
    because the handshake or the pipes could not be started, the death
    callback's code is discarded and it returns -1. *)
Theorem callback_return_code (e : loop_event) (C : conn_state) (w : world) :
  match dispatch e C w with
  | Done (rc, Some _) _ => rc = 0
  | Done (rc, None) _ =>
    rc = match e with
         | L_connect_done fd =>
           if fd =? -1
           then callback_dead C (cookie C) PROTO_CONN_CONNECT_FAILED
           else -1
         | L_handshake_done f r =>
           if is_null f && is_null r
           then callback_dead C (cookie C) PROTO_CONN_HANDSHAKE_FAILED
           else -1
         | _ => callback_dead C (cookie C) (drop_reason e C)
         end
  | Aborted _ => True
  end.
Proof.
  destruct w as [tr n orc].
  destruct C as [cd ck sa de np rp nk KK ti ss tt pc ctc hc htc kf kr pf pr sf sr].
  unfold drop_reason.
  destruct e as [fd| |f r| |[|] st]; eval_callback;
    repeat eval_step; reduce_conn; use_eqns; try reflexivity; try exact I.
Qed.

(** ** sock_util.c: integers as bytes *)

Lemma Z_of_byte_range b : 0 <= Z_of_byte b < 256.
Proof.
  unfold Z_of_byte. pose proof (Byte.to_N_bounded b). lia.
Qed.

Lemma Z_of_byte_of_Z x : Z_of_byte (byte_of_Z x) = x mod 256.
Proof.
  unfold Z_of_byte, byte_of_Z.
  pose proof (Z.mod_pos_bound x 256 ltac:(lia)) as Hx.
  destruct (Byte.of_N (Z.to_N (x mod 256))) as [b|] eqn:E.
  - apply Byte.to_of_N in E. rewrite E. lia.
  - apply Byte.of_N_None_iff in E. lia.
Qed.

Lemma modulus_pos n : 0 < modulus n.
Proof. unfold modulus. apply Z.pow_pos_nonneg; lia. Qed.

Lemma modulus_S n : modulus (S n) = 256 * modulus n.
Proof.
  unfold modulus.
  replace (8 * Z.of_nat (S n)) with (8 + 8 * Z.of_nat n) by lia.
  rewrite Z.pow_add_r by lia. reflexivity.
Qed.

Lemma modulus_le n m : (n <= m)%nat -> modulus n <= modulus m.
Proof. intros H. unfold modulus. apply Z.pow_le_mono_r; lia. Qed.

Lemma length_le_bytes n x : List.length (le_bytes n x) = n.
Proof. revert x. induction n as [|n IH]; intros x; cbn; [|rewrite IH]; reflexivity. Qed.

Lemma le_value_range l : 0 <= le_value l < modulus (List.length l).
Proof.
  induction l as [|b l IH].
  - cbn. unfold modulus. cbn. lia.
  - cbn [le_value List.length]. rewrite modulus_S.
    pose proof (Z_of_byte_range b). lia.
Qed.

Lemma le_value_le_bytes n x : le_value (le_bytes n x) = x mod modulus n.
Proof.
  revert x. induction n as [|n IH]; intros x.
  - cbn. unfold modulus. cbn. now rewrite Z.mod_1_r.
  - cbn [le_bytes le_value]. rewrite IH, Z_of_byte_of_Z, modulus_S.
    pose proof (modulus_pos n).
    rewrite Z.rem_mul_r by lia. reflexivity.
Qed.

Lemma signed_mod n x :
  (0 < n)%nat ->
  - (modulus n / 2) <= x < modulus n / 2 ->
  signed n (x mod modulus n) = x.
Proof.
  intros Hn Hx. unfold signed.
  assert (modulus n = 2 * (modulus n / 2)) as Heven.
  { destruct n as [|n]; [lia|]. rewrite modulus_S.
    replace (256 * modulus n) with (2 * (128 * modulus n)) by lia.
    now rewrite Z.mul_comm, Z.div_mul, Z.mul_comm by lia. }
  destruct (Z_lt_le_dec x 0) as [Hneg|Hpos].
  - replace (x mod modulus n) with (x + modulus n).
    + destruct (Z.ltb_spec (x + modulus n) (modulus n / 2)); lia.
    + apply Z.mod_unique with (q := -1); lia.
  - rewrite Z.mod_small by lia.
    destruct (Z.ltb_spec x (modulus n / 2)); lia.
Qed.

Lemma memcmp_refl l n : memcmp l l n = 0.
Proof.
  revert n. induction l as [|b l IH]; intros [|n]; cbn; auto.
  now rewrite (Byte.byte_dec_lb (eq_refl b)).
Qed.

Lemma firstn_app_length {A} (l r : list A) n :
  n = List.length l -> firstn n (l ++ r) = l.
Proof.
  intros ->. rewrite firstn_app, Nat.sub_diag, firstn_all. cbn.
  apply app_nil_r.
Qed.

Lemma skipn_app_length {A} (l r : list A) n :
  n = List.length l -> skipn n (l ++ r) = r.
Proof.
  intros ->. rewrite skipn_app, Nat.sub_diag, skipn_all. reflexivity.
Qed.

Section Codec.

Variable h : abi.
Hypothesis Hok : abi_ok h.

Lemma length_obj_bytes n x : List.length (obj_bytes h n x) = n.
Proof.
  unfold obj_bytes. destruct (big_endian h);
    rewrite ?length_rev; apply length_le_bytes.
Qed.

Lemma obj_value_obj_bytes n x :
  obj_value h (obj_bytes h n x) = x mod modulus n.
Proof.
  unfold obj_value, obj_bytes. destruct (big_endian h);
    rewrite ?rev_involutive; apply le_value_le_bytes.
Qed.

Lemma obj_value_range l : 0 <= obj_value h l < modulus (List.length l).
Proof.
  unfold obj_value. destruct (big_endian h).
  - rewrite <- (length_rev l). apply le_value_range.
  - apply le_value_range.
Qed.

Lemma header_size_eq :
  header_size h = 2 * Z.of_nat (sizeof_int h) + Z.of_nat (sizeof_socklen_t h).
Proof.
  destruct Hok as (Hi & Hs & Hle & Hhdr).
  unfold header_size, size_t_wrap.
  rewrite (Z.mod_small (2 * Z.of_nat (sizeof_int h))) by lia.
  apply Z.mod_small. lia.
Qed.

Lemma load_socklen_t_range buf :
  0 <= load_socklen_t h buf < modulus (sizeof_socklen_t h).
Proof.
  unfold load_socklen_t.
  pose proof (obj_value_range (firstn (sizeof_socklen_t h) buf)) as Hr.
  pose proof (firstn_le_length (sizeof_socklen_t h) buf) as Hl.
  pose proof (modulus_le _ _ Hl). lia.
Qed.

(** The length test of [sock_addr_deserialize] is the exact one: the
    wrap-around of [size_t] never makes a wrong length pass. *)
Lemma length_test_exact len nl :
  header_size h <= len ->
  0 <= nl < modulus (sizeof_socklen_t h) ->
  (len =? size_t_wrap h (header_size h + size_t_wrap h nl)) = true ->
  header_size h + nl = len.
Proof.
  intros Hlen Hnl Heq. apply Z.eqb_eq in Heq.
  destruct Hok as (Hi & Hs & Hle & Hhdr).
  pose proof header_size_eq as Hh.
  pose proof (modulus_le _ _ Hle) as Hm.
  unfold size_t_wrap in Heq.
  rewrite (Z.mod_small nl) in Heq by lia.
  destruct (Z_lt_le_dec (header_size h + nl) (modulus (sizeof_size_t h))).
  - rewrite Z.mod_small in Heq by lia. lia.
  - assert ((header_size h + nl) mod modulus (sizeof_size_t h)
            = header_size h + nl - modulus (sizeof_size_t h)) as Hw.
    { symmetry. apply Z.mod_unique with (q := 1); lia. }
    lia.
Qed.

End Codec.

(** ** sock_addr_deserialize *)

(** The outcome of [sock_addr_deserialize], test by test. *)
Lemma sock_addr_deserialize_run h buf w :
  let len := Z.of_nat (List.length buf) in
  let nl := declared_namelen h buf in
  sock_addr_deserialize h buf w
  = if len <? header_size h then Done None w
    else if is_null (oracle w (calls w)) then
      Done None
        (mk_world (trace w ++ [Ev_malloc OBJ_sock_addr None])
           (S (calls w)) (oracle w))
    else if negb (len =? size_t_wrap h (header_size h + size_t_wrap h nl)) then
      Done None
        (mk_world
           (trace w ++ [Ev_malloc OBJ_sock_addr (oracle w (calls w));
                        Ev_free OBJ_sock_addr])
           (S (calls w)) (oracle w))
    else if is_null (oracle w (S (calls w))) then
      Done None
        (mk_world
           (trace w ++ [Ev_malloc OBJ_sock_addr (oracle w (calls w));
                        Ev_malloc OBJ_name None;
                        Ev_free OBJ_sock_addr])
           (S (S (calls w))) (oracle w))
    else
      Done
        (Some (mk_sock_addr (load_int h buf)
                 (load_int h (skipn (sizeof_int h) buf)) 
                 (firstn (Z.to_nat nl)
                    (skipn (sizeof_socklen_t h)
                       (skipn (sizeof_int h) (skipn (sizeof_int h) buf))))
                 nl))
        (mk_world
           (trace w ++ [Ev_malloc OBJ_sock_addr (oracle w (calls w));
                        Ev_malloc OBJ_name (oracle w (S (calls w)))])
           (S (S (calls w))) (oracle w)).
Proof.
  intros len nl. subst len nl.
  destruct w as [tr n orc].
  unfold sock_addr_deserialize, declared_namelen.
  destruct (Z.of_nat (List.length buf) <? header_size h); [reflexivity|].
  unfold malloc, free, bind, fresh, emit, ret. cbn [trace calls oracle].
  destruct (orc n) as [p|]; cbn [is_null]; [|reflexivity].
  destruct (negb _); cbn [trace calls oracle].
  - rewrite <- app_assoc. reflexivity.
  - destruct (orc (S n)) as [q|]; cbn [is_null trace calls oracle];
      rewrite <- !app_assoc; reflexivity.
Qed.

(** C7.  [sock_addr_deserialize] returns NULL, touching nothing, for a
    buffer shorter than the header of two [int]s and a [socklen_t]; it
    returns NULL for a buffer whose declared name length plus the header
    size is not the buffer length; whenever it succeeds, the declared name
    length is exactly the length of the rest of the buffer, and is the name
    length of the result; and a buffer of such a length is accepted when
    the two allocations succeed. *)
Theorem sock_addr_deserialize_exact_length (h : abi) (buf : list byte) (w : world) :
  abi_ok h ->
  let hdr := 2 * Z.of_nat (sizeof_int h) + Z.of_nat (sizeof_socklen_t h) in
  let len := Z.of_nat (List.length buf) in
  (len < hdr -> sock_addr_deserialize h buf w = Done None w)
  /\ (hdr <= len -> hdr + declared_namelen h buf <> len ->
      exists w', sock_addr_deserialize h buf w = Done None w')
  /\ (forall sa w',
        sock_addr_deserialize h buf w = Done (Some sa) w' ->
        hdr <= len
        /\ hdr + declared_namelen h buf = len
        /\ namelen sa = declared_namelen h buf
        /\ Z.of_nat (List.length (name sa)) = namelen sa)
  /\ (hdr + declared_namelen h buf = len ->
      len < modulus (sizeof_size_t h) ->
      two_allocs_ok w = true ->
      exists sa w', sock_addr_deserialize h buf w = Done (Some sa) w').
Proof.
  intros Hok hdr len. subst hdr len.
  pose proof (header_size_eq h Hok) as Hh.
  pose proof (load_socklen_t_range h
                (skipn (sizeof_int h) (skipn (sizeof_int h) buf))) as Hnl.
  fold (declared_namelen h buf) in Hnl.
  rewrite sock_addr_deserialize_run. cbv zeta. rewrite <- Hh.
  destruct (Z.ltb_spec (Z.of_nat (List.length buf)) (header_size h)) as [Hlt|Hge].
  { split; [reflexivity|]. split; [lia|].
    split; [discriminate|].
    intros. lia. }
  split; [lia|].
  destruct (Z.of_nat (List.length buf)
            =? size_t_wrap h (header_size h + size_t_wrap h (declared_namelen h buf)))
    eqn:Etest.
  - pose proof (length_test_exact h Hok _ _ Hge Hnl Etest) as Hexact.
    cbn [negb].
    split; [intros _ Hne; lia|].
    split.
    + intros sa w'.
      destruct (is_null (oracle w (calls w))); [discriminate|].
      destruct (is_null (oracle w (S (calls w)))); [discriminate|].
      intros H. injection H as <- <-. cbn [namelen name].
      repeat split; try lia.
      rewrite length_firstn, !length_skipn. lia.
    + intros _ _ Hall. unfold two_allocs_ok in Hall.
      destruct (is_null (oracle w (calls w))); [discriminate|].
      destruct (is_null (oracle w (S (calls w)))); [discriminate|].
      eauto.
  - cbn [negb].
    assert (header_size h + declared_namelen h buf
            <> Z.of_nat (List.length buf)
            \/ modulus (sizeof_size_t h) <= Z.of_nat (List.length buf)) as Hne.
    { destruct (Z.eq_dec (header_size h + declared_namelen h buf)
                  (Z.of_nat (List.length buf))) as [Heq|]; [|now left].
      right. apply Z.eqb_neq in Etest.
      destruct (Z_lt_le_dec (Z.of_nat (List.length buf))
                  (modulus (sizeof_size_t h))); [|assumption].
      exfalso. apply Etest. unfold size_t_wrap.
      destruct Hok as (Hi & Hs & Hle & Hhdr).
      pose proof (modulus_le _ _ Hle).
      rewrite (Z.mod_small (declared_namelen h buf)) by lia.
      rewrite Z.mod_small by lia. lia. }
    split.
    + intros _ _. destruct (is_null (oracle w (calls w))); eauto.
    + split.
      * intros sa w'. destruct (is_null (oracle w (calls w))); discriminate.
      * intros Heq Hlen. lia.
Qed.

Lemma abi_ok_lp64 : abi_ok lp64.
Proof. unfold abi_ok, lp64, modulus. cbn. repeat split; lia. Qed.

(** A three-byte buffer is refused untouched; a header that declares two
    name bytes in front of none is refused after the structure has been
    allocated and freed. *)
Lemma sock_addr_deserialize_exact_length_witness :
  let w := mk_world [] 0 (fun n => Some (N.of_nat n)) in
  let short := [x02; x00; x00]%byte in
  let bad := [x02; x00; x00; x00; x01; x00; x00; x00; x02; x00; x00; x00]%byte in
  abi_ok lp64
  /\ sock_addr_deserialize lp64 short w = Done None w
  /\ (exists w', sock_addr_deserialize lp64 bad w = Done None w').
Proof.
  intros w short bad. split; [exact abi_ok_lp64|]. split.
  - apply (proj1 (sock_addr_deserialize_exact_length lp64 short w abi_ok_lp64)).
    cbn. lia.
  - apply (proj1 (proj2 (sock_addr_deserialize_exact_length lp64 bad w abi_ok_lp64)));
      vm_compute; congruence.
Defined.

Example sock_addr_deserialize_bad_length :
  sock_addr_deserialize lp64
    [x02; x00; x00; x00; x01; x00; x00; x00; x02; x00; x00; x00]%byte
    (mk_world [] 0 (fun n => Some (N.of_nat n)))
  = Done None
      (mk_world [Ev_malloc OBJ_sock_addr (Some 0%N); Ev_free OBJ_sock_addr]
         1 (fun n => Some (N.of_nat n))).
Proof. vm_compute. reflexivity. Qed.

(** ** serialize, then deserialize *)

Lemma load_int_app h x rest :
  (0 < sizeof_int h)%nat ->
  - (modulus (sizeof_int h) / 2) <= x < modulus (sizeof_int h) / 2 ->
  load_int h (obj_bytes h (sizeof_int h) x ++ rest) = x.
Proof.
  intros Hn Hx. unfold load_int.
  rewrite firstn_app_length by now rewrite length_obj_bytes.
  rewrite obj_value_obj_bytes. now apply signed_mod.
Qed.

Lemma load_socklen_t_app h x rest :
  0 <= x < modulus (sizeof_socklen_t h) ->
  load_socklen_t h (obj_bytes h (sizeof_socklen_t h) x ++ rest) = x.
Proof.
  intros Hx. unfold load_socklen_t.
  rewrite firstn_app_length by now rewrite length_obj_bytes.
  rewrite obj_value_obj_bytes. now apply Z.mod_small.
Qed.

Lemma sock_addr_cmp_refl sa : sock_addr_cmp sa sa = 0.
Proof.
  unfold sock_addr_cmp. rewrite !Z.eqb_refl, memcmp_refl. reflexivity.
Qed.

(** C6.  On a host [h], for a valid address [sa]: when
    [sock_addr_serialize] produces a buffer it returns 0 and the buffer's
    length; [sock_addr_deserialize] of that buffer, in any world, returns
    an address exactly when its two allocations succeed, and that address
    is [sa] itself: same family, socket type, name length and name bytes,
    equal under [sock_addr_cmp]. *)
Theorem sock_addr_serialize_deserialize (h : abi) (sa : sock_addr)
    (w w1 : world) (rc buflen : Z) (buf : list byte) :
  abi_ok h ->
  valid_sock_addr h sa ->
  sock_addr_serialize h sa w = Done (rc, Some buf, buflen) w1 ->
  rc = 0
  /\ buflen = Z.of_nat (List.length buf)
  /\ (forall w2, exists w3,
        sock_addr_deserialize h buf w2
        = Done (if two_allocs_ok w2 then Some sa else None) w3)
  /\ (forall w2 sa' w3,
        sock_addr_deserialize h buf w2 = Done (Some sa') w3 ->
        sa' = sa /\ sock_addr_cmp sa' sa = 0).
Proof.
  intros Hok (Hfam & Hst & Hnl & Hname & Hfit) Hser.
  pose proof (header_size_eq h Hok) as Hh.
  destruct Hok as (Hi & Hs & Hle & Hhdr).
  pose proof (modulus_le _ _ Hle) as Hm.
  destruct sa as [fam st nm nl]. cbn [ai_family ai_socktype name namelen] in *.
  unfold sock_addr_serialize, malloc, bind, fresh, emit, ret in Hser.
  cbn [ai_family ai_socktype name namelen trace calls oracle] in Hser.
  destruct (oracle w (calls w)) as [p|]; cbn [is_null] in Hser;
    [|discriminate].
  injection Hser as <- <- <- <-.
  assert (firstn (Z.to_nat nl) nm = nm) as Hfirst.
  { apply firstn_all2. lia. }
  rewrite Hfirst.
  set (buf := obj_bytes h (sizeof_int h) fam
              ++ obj_bytes h (sizeof_int h) st
              ++ obj_bytes h (sizeof_socklen_t h) nl ++ nm).
  assert (Z.of_nat (List.length buf) = header_size h + nl) as Hlen.
  { subst buf. rewrite !length_app, !length_obj_bytes. lia. }
  assert (size_t_wrap h (header_size h + size_t_wrap h nl)
          = header_size h + nl) as Hwrap.
  { unfold size_t_wrap. rewrite (Z.mod_small nl) by lia.
    apply Z.mod_small. lia. }
  assert (declared_namelen h buf = nl) as Hdecl.
  { unfold declared_namelen. subst buf.
    rewrite !skipn_app_length by now rewrite length_obj_bytes.
    now apply load_socklen_t_app. }
  assert (forall w2,
             sock_addr_deserialize h buf w2
             = if two_allocs_ok w2 then
                 Done (Some (mk_sock_addr fam st nm nl))
                   (mk_world
                      (trace w2 ++ [Ev_malloc OBJ_sock_addr (oracle w2 (calls w2));
                                    Ev_malloc OBJ_name (oracle w2 (S (calls w2)))])
                      (S (S (calls w2))) (oracle w2))
               else
                 Done None (after (sock_addr_deserialize h buf w2))) as Hrun.
  { intros w2. rewrite sock_addr_deserialize_run. cbv zeta.
    rewrite Hdecl, Hwrap, Hlen, Z.eqb_refl.
    destruct (Z.ltb_spec (header_size h + nl) (header_size h)); [lia|].
    unfold two_allocs_ok. cbn [negb].
    destruct (is_null (oracle w2 (calls w2))); [reflexivity|].
    destruct (is_null (oracle w2 (S (calls w2)))); [reflexivity|].
    cbn [negb andb]. f_equal. f_equal. subst buf.
    rewrite load_int_app by assumption.
    rewrite !skipn_app_length by now rewrite length_obj_bytes.
    rewrite load_int_app by assumption.
    rewrite Hfirst. reflexivity. }
  split; [reflexivity|]. split; [rewrite Hlen, Hwrap; reflexivity|]. split.
  - intros w2. rewrite Hrun. destruct (two_allocs_ok w2); eauto.
  - intros w2 sa' w3 Hd. rewrite Hrun in Hd.
    destruct (two_allocs_ok w2); [|discriminate].
    injection Hd as <- _. split; [reflexivity | apply sock_addr_cmp_refl].
Qed.

(** A socket address of 127.0.0.1:8080 survives the round trip. *)
Lemma sock_addr_serialize_deserialize_witness :
  let sa := mk_sock_addr 2 1
              [x02; x00; x1f; x90; x7f; x00; x00; x01;
               x00; x00; x00; x00; x00; x00; x00; x00]%byte 16 in
  let w := mk_world [] 0 (fun n => Some (N.of_nat n)) in
  abi_ok lp64 /\ valid_sock_addr lp64 sa
  /\ exists rc buf buflen w1,
       sock_addr_serialize lp64 sa w = Done (rc, Some buf, buflen) w1
       /\ rc = 0
       /\ buflen = Z.of_nat (List.length buf)
       /\ exists w3, sock_addr_deserialize lp64 buf w = Done (Some sa) w3.
Proof.
  intros sa w.
  assert (valid_sock_addr lp64 sa) as Hv.
  { unfold valid_sock_addr, modulus. cbn. repeat split; lia. }
  split; [exact abi_ok_lp64|]. split; [exact Hv|].
  destruct (sock_addr_serialize lp64 sa w) as [[[rc [buf|]] buflen] w1|] eqn:E;
    try (vm_compute in E; discriminate E).
  exists rc, buf, buflen, w1. split; [reflexivity|].
  destruct (sock_addr_serialize_deserialize lp64 sa w w1 rc buflen buf
              abi_ok_lp64 Hv E) as (Hrc & Hlen & Hde & _).
  split; [exact Hrc|]. split; [exact Hlen|].
  destruct (Hde w) as [w3 H3]. exists w3. exact H3.
Defined.

Example sock_addr_serialize_big_endian :
  let sa := mk_sock_addr (-2) 1 [x2f; x61; x00]%byte 3 in
  let w := mk_world [] 0 (fun n => Some (N.of_nat n)) in
  sock_addr_serialize ilp32_be sa w
  = Done (0,
          Some [xff; xff; xff; xfe; x00; x00; x00; x01;
                x00; x00; x00; x03; x2f; x61; x00]%byte,
          15)
      (mk_world [Ev_malloc OBJ_buf (Some 0%N)] 1 (fun n => Some (N.of_nat n)))
  /\ sock_addr_deserialize ilp32_be
       [xff; xff; xff; xfe; x00; x00; x00; x01;
        x00; x00; x00; x03; x2f; x61; x00]%byte w
     = Done (Some sa)
         (mk_world [Ev_malloc OBJ_sock_addr (Some 0%N);
                    Ev_malloc OBJ_name (Some 1%N)]
            2 (fun n => Some (N.of_nat n))).
Proof. split; vm_compute; reflexivity. Qed.

(** ** sock_addr_dup and sock_addr_duplist *)

(** The outcome of [sock_addr_dup], allocation by allocation. *)
Lemma sock_addr_dup_run sa w :
  sock_addr_dup sa w
  = if is_null (oracle w (calls w)) then
      Done None
        (mk_world (trace w ++ [Ev_malloc OBJ_sock_addr None])
           (S (calls w)) (oracle w))
    else if is_null (oracle w (S (calls w))) then
      Done None
        (mk_world
           (trace w ++ [Ev_malloc OBJ_sock_addr (oracle w (calls w));
                        Ev_malloc OBJ_name None;
                        Ev_free OBJ_sock_addr])
           (S (S (calls w))) (oracle w))
    else
      Done (Some (copied sa))
        (mk_world
           (trace w ++ [Ev_malloc OBJ_sock_addr (oracle w (calls w));
                        Ev_malloc OBJ_name (oracle w (S (calls w)))])
           (S (S (calls w))) (oracle w)).
Proof.
  destruct w as [tr n orc].
  unfold sock_addr_dup, malloc, free, bind, fresh, emit, ret.
  cbn [trace calls oracle].
  destruct (orc n) as [p|]; cbn [is_null trace calls oracle]; [|reflexivity].
  destruct (orc (S n)) as [q|]; cbn [is_null trace calls oracle];
    rewrite <- !app_assoc; reflexivity.
Qed.

Lemma copied_valid sa :
  namelen sa = Z.of_nat (List.length (name sa)) -> copied sa = sa.
Proof.
  destruct sa as [f t nm nl]. unfold copied. cbn [namelen name ai_family ai_socktype].
  intros ->. rewrite Nat2Z.id, firstn_all. reflexivity.
Qed.

Lemma sock_addr_cmp_copied sa : sock_addr_cmp sa (copied sa) = 0.
Proof.
  unfold sock_addr_cmp, copied. cbn [namelen name ai_family ai_socktype].
  rewrite !Z.eqb_refl. cbn [negb orb].
  assert (forall n l, memcmp l (firstn n l) n = 0) as H.
  { induction n as [|n IH]; intros [|x l]; cbn; try reflexivity.
    rewrite (Byte.byte_dec_lb (eq_refl x)). apply IH. }
  rewrite H. reflexivity.
Qed.

(** X10.  [sock_addr_dup] succeeds exactly when its two allocations
    succeed; the copy then compares equal to the original under
    [sock_addr_cmp] (and is the original, field by field, when [name] holds
    [namelen] bytes) and nothing has been freed.  When it fails, every
    block it allocated has been freed again. *)
Theorem sock_addr_dup_copy (sa : sock_addr) (w : world) :
  exists r w' evs,
    sock_addr_dup sa w = Done r w'
    /\ trace w' = trace w ++ evs
    /\ (forall what, collect (allocated what) evs = []
                     \/ what = OBJ_sock_addr \/ what = OBJ_name)
    /\ match r with
       | Some sa2 =>
         two_allocs_ok w = true
         /\ sock_addr_cmp sa sa2 = 0
         /\ (namelen sa = Z.of_nat (List.length (name sa)) -> sa2 = sa)
         /\ List.length (collect (allocated OBJ_sock_addr) evs) = 1%nat
         /\ List.length (collect (allocated OBJ_name) evs) = 1%nat
         /\ (forall what, collect (freed what) evs = [])
       | None =>
         two_allocs_ok w = false
         /\ (forall what,
               List.length (collect (allocated what) evs)
               = List.length (collect (freed what) evs))
       end.
Proof.
  rewrite sock_addr_dup_run. unfold two_allocs_ok.
  destruct (oracle w (calls w)) as [p|]; cbn [is_null negb andb].
  - destruct (oracle w (S (calls w))) as [q|]; cbn [is_null negb andb].
    + eexists. eexists. eexists. split; [reflexivity|].
      cbn [trace]. split; [reflexivity|].
      split; [intros []; cbn; auto|].
      split; [reflexivity|]. split; [apply sock_addr_cmp_copied|].
      split; [apply copied_valid|]. repeat split.
    + eexists. eexists. eexists. split; [reflexivity|].
      cbn [trace]. split; [reflexivity|].
      split; [intros []; cbn; auto|].
      split; [reflexivity|]. intros []; reflexivity.
  - eexists. eexists. eexists. split; [reflexivity|].
    cbn [trace]. split; [reflexivity|].
    split; [intros []; cbn; auto|].
    split; [reflexivity|]. intros []; reflexivity.
Qed.

Lemma allocs_ok_S w k tr :
  allocs_ok w (S k)
  = negb (is_null (oracle w (calls w)))
    && allocs_ok (mk_world tr (S (calls w)) (oracle w)) k.
Proof.
  unfold allocs_ok. cbn [seq forallb trace calls oracle].
  rewrite Nat.add_0_r. f_equal.
  generalize 0%nat as b. induction k as [|k IH]; intros b; [reflexivity|].
  cbn [seq forallb]. now rewrite IH, Nat.add_succ_r.
Qed.

Lemma allocs_ok_fail w k :
  is_null (oracle w (calls w)) = true -> allocs_ok w (S k) = false.
Proof. intros H. rewrite (allocs_ok_S w k []), H. reflexivity. Qed.

Ltac count_allocs :=
  rewrite ?collect_app, ?collect_cons, ?collect_nil;
  cbn [allocated freed released_list object_eqb app List.length];
  rewrite ?length_app; cbn [List.length].

(** The loop of [sock_addr_duplist]: it fills the list with copies, in
    order, and stops at the first copy that fails. *)
Lemma duplist_loop_run sas :
  forall sas2 w,
  exists r w' evs,
    duplist_loop sas sas2 w = Done r w'
    /\ trace w' = trace w ++ evs
    /\ collect released_list evs = []
    /\ (forall what, what <> OBJ_sock_addr -> collect (freed what) evs = [])
    /\ collect (allocated OBJ_buf) evs = []
    /\ match r with
       | inl l =>
         allocs_ok w (2 * List.length sas) = true
         /\ l = sas2 ++ map copied sas
         /\ List.length (collect (allocated OBJ_sock_addr) evs) = List.length sas
         /\ List.length (collect (allocated OBJ_name) evs) = List.length sas
         /\ collect (freed OBJ_sock_addr) evs = []
       | inr part =>
         allocs_ok w (2 * List.length sas) = false
         /\ exists k,
              (k < List.length sas)%nat
              /\ part = sas2 ++ map copied (firstn k sas)
              /\ List.length (collect (allocated OBJ_sock_addr) evs)
                 = (k + List.length (collect (freed OBJ_sock_addr) evs))%nat
              /\ List.length (collect (allocated OBJ_name) evs) = k
       end.
Proof.
  induction sas as [|sa rest IH]; intros sas2 w.
  - exists (inl sas2), w, []. cbn. rewrite !app_nil_r. repeat split.
  - cbn [duplist_loop List.length]. unfold bind at 1.
    rewrite sock_addr_dup_run.
    replace (2 * S (List.length rest))%nat
      with (S (S (2 * List.length rest))) by lia.
    destruct (oracle w (calls w)) as [p|] eqn:E1; cbn [is_null].
    2:{ eexists. eexists. eexists. split; [reflexivity|]. cbn [trace].
        split; [reflexivity|]. split; [reflexivity|].
        split; [intros what _; reflexivity|]. split; [reflexivity|].
        split; [apply allocs_ok_fail; now rewrite E1|].
        exists 0%nat. cbn. rewrite app_nil_r. repeat split. lia. }
    destruct (oracle w (S (calls w))) as [q|] eqn:E2; cbn [is_null].
    2:{ eexists. eexists. eexists. split; [reflexivity|]. cbn [trace].
        split; [reflexivity|]. split; [reflexivity|].
        split; [intros [] Hw; try reflexivity; now elim Hw|].
        split; [reflexivity|].
        split.
        { rewrite (allocs_ok_S w _ []), E1. cbn [is_null negb andb].
          apply allocs_ok_fail. cbn [oracle calls]. now rewrite E2. }
        exists 0%nat. cbn. rewrite app_nil_r. repeat split. lia. }
    match goal with
    | |- context [duplist_loop rest ?l ?w1] =>
      destruct (IH l w1) as (r & w' & evs & Hrun & Htr & Hrel & Hfn & Hbuf & Hr)
    end.
    rewrite Hrun. cbn [trace] in Htr.
    exists r, w'. eexists. split; [reflexivity|].
    split; [rewrite Htr, <- app_assoc; reflexivity|].
    count_allocs. rewrite Hrel, Hbuf.
    split; [reflexivity|].
    split; [intros what Hw; count_allocs; now apply Hfn|].
    split; [reflexivity|].
    rewrite (allocs_ok_S w _ []), E1. cbn [is_null negb andb].
    rewrite (allocs_ok_S _ _ (trace w ++ [Ev_malloc OBJ_sock_addr (Some p);
                                          Ev_malloc OBJ_name (Some q)])).
    cbn [oracle calls]. rewrite E2. cbn [is_null negb andb].
    destruct r as [l|part].
    + destruct Hr as (Hok & -> & Hsa & Hnm & Hfr).
      rewrite Hsa, Hnm, Hfr. rewrite <- app_assoc.
      repeat split; auto.
    + destruct Hr as (Hok & k & Hk & -> & Hsa & Hnm).
      split; [exact Hok|]. exists (S k).
      rewrite Hsa, Hnm, <- app_assoc. cbn [firstn map app].
      repeat split; lia.
Qed.

(** X11.  When the allocations succeed (one for the list, two for each
    address), [sock_addr_duplist] returns the copies of the addresses, as
    many and in the same order, each comparing equal to its original; it
    frees nothing and does not call [sock_addr_freelist]. *)
Theorem sock_addr_duplist_success (sas : list sock_addr) (w : world) :
  allocs_ok w (1 + 2 * List.length sas) = true ->
  exists w' evs,
    sock_addr_duplist sas w = Done (Some (map copied sas)) w'
    /\ trace w' = trace w ++ evs
    /\ Forall2 (fun sa sa2 => sock_addr_cmp sa sa2 = 0) sas (map copied sas)
    /\ (Forall (fun sa => namelen sa = Z.of_nat (List.length (name sa))) sas ->
        map copied sas = sas)
    /\ List.length (collect (allocated OBJ_buf) evs) = 1%nat
    /\ List.length (collect (allocated OBJ_sock_addr) evs) = List.length sas
    /\ List.length (collect (allocated OBJ_name) evs) = List.length sas
    /\ (forall what, collect (freed what) evs = [])
    /\ collect released_list evs = [].
Proof.
  intros Hok.
  unfold sock_addr_duplist, malloc, sock_addr_freelist, bind, fresh, emit, ret.
  cbn [trace calls oracle].
  cbn [Nat.add] in Hok.
  rewrite (allocs_ok_S w _ (trace w ++ [Ev_malloc OBJ_buf (oracle w (calls w))]))
    in Hok.
  apply andb_prop in Hok. destruct Hok as [H0 Hok].
  destruct (oracle w (calls w)) as [p|] eqn:E0; [|discriminate H0].
  cbn [is_null].
  match goal with
  | |- context [duplist_loop sas [] ?w1] =>
    destruct (duplist_loop_run sas [] w1)
      as (r & w' & evs & Hrun & Htr & Hrel & Hfn & Hbuf & Hr)
  end.
  rewrite Hrun. cbn [trace] in Htr.
  destruct r as [l|part].
  2:{ destruct Hr as (Hno & _). rewrite Hok in Hno. discriminate Hno. }
  destruct Hr as (_ & -> & Hsa & Hnm & Hfr). cbn [app].
  eexists. eexists. split; [reflexivity|].
  split; [rewrite Htr, <- app_assoc; reflexivity|].
  count_allocs. rewrite Hrel, Hbuf, Hsa, Hnm.
  split.
  { clear. induction sas as [|sa rest IH]; cbn [map]; constructor; auto.
    apply sock_addr_cmp_copied. }
  split.
  { clear. induction 1 as [|sa rest Hsa _ IH]; cbn [map]; [reflexivity|].
    now rewrite IH, copied_valid. }
  repeat split.
  intros what. count_allocs.
  destruct what; try exact Hfr; apply Hfn; discriminate.
Qed.

Lemma sock_addr_duplist_success_witness :
  let sa1 := mk_sock_addr 2 1 [x7f; x00; x00; x01] 4 in
  let sa2 := mk_sock_addr 10 1 [x01; x02] 2 in
  let w := mk_world [] 0 (fun n => Some (N.of_nat n)) in
  exists w',
    sock_addr_duplist [sa1; sa2] w = Done (Some [sa1; sa2]) w'
    /\ List.length (trace w') = 5%nat.
Proof.
  intros sa1 sa2 w.
  destruct (sock_addr_duplist_success [sa1; sa2] w)
    as (w' & evs & Hrun & _); [vm_compute; reflexivity|].
  exists w'. split; [exact Hrun|].
  vm_compute in Hrun. injection Hrun as <-. reflexivity.
Defined.

(** X12.  When one of its allocations fails, [sock_addr_duplist] returns
    NULL.  If the list itself could not be allocated nothing else happens;
    otherwise its last call is [sock_addr_freelist] on exactly the copies
    made before the failure, a strict prefix of the input in order, and
    the structure of the copy that failed has been freed. *)
Theorem sock_addr_duplist_failure (sas : list sock_addr) (w : world) :
  allocs_ok w (1 + 2 * List.length sas) = false ->
  exists w' evs,
    sock_addr_duplist sas w = Done None w'
    /\ trace w' = trace w ++ evs
    /\ (evs = [Ev_malloc OBJ_buf None]
        \/ exists k front,
             (k < List.length sas)%nat
             /\ evs = front
                      ++ [Ev_sock_addr_freelist (Some (map copied (firstn k sas)))]
             /\ collect released_list front = []
             /\ List.length (collect (allocated OBJ_buf) front) = 1%nat
             /\ List.length (collect (allocated OBJ_sock_addr) front)
                = (k + List.length (collect (freed OBJ_sock_addr) front))%nat
             /\ List.length (collect (allocated OBJ_name) front) = k
             /\ (forall what, what <> OBJ_sock_addr ->
                 collect (freed what) front = [])).
Proof.
  intros Hno.
  unfold sock_addr_duplist, malloc, sock_addr_freelist, bind, fresh, emit, ret.
  cbn [trace calls oracle].
  cbn [Nat.add] in Hno.
  rewrite (allocs_ok_S w _ (trace w ++ [Ev_malloc OBJ_buf (oracle w (calls w))]))
    in Hno.
  destruct (oracle w (calls w)) as [p|] eqn:E0; cbn [is_null negb andb] in *.
  2:{ eexists. eexists. split; [reflexivity|]. cbn [trace].
      split; [reflexivity|]. now left. }
  match goal with
  | |- context [duplist_loop sas [] ?w1] =>
    destruct (duplist_loop_run sas [] w1)
      as (r & w' & evs & Hrun & Htr & Hrel & Hfn & Hbuf & Hr)
  end.
  rewrite Hrun. cbn [trace] in Htr.
  destruct r as [l|part].
  { destruct Hr as (Hok & _). rewrite Hok in Hno. discriminate Hno. }
  destruct Hr as (_ & k & Hk & -> & Hsa & Hnm). cbn [app].
  eexists. eexists. split; [reflexivity|]. cbn [trace].
  split; [rewrite Htr, <- !app_assoc; reflexivity|].
  right. exists k, (Ev_malloc OBJ_buf (Some p) :: evs).
  split; [exact Hk|]. split; [reflexivity|].
  change (Ev_malloc OBJ_buf (Some p) :: evs)
    with ([Ev_malloc OBJ_buf (Some p)] ++ evs).
  count_allocs. rewrite Hrel, Hbuf, Hsa, Hnm.
  repeat split.
  intros what Hw. count_allocs. now apply Hfn.
Qed.

Lemma sock_addr_duplist_failure_witness :
  let sa1 := mk_sock_addr 2 1 [x7f; x00; x00; x01] 4 in
  let sa2 := mk_sock_addr 10 1 [x01; x02] 2 in
  let w := mk_world [] 0
             (fun n => if (n <? 3)%nat then Some (N.of_nat n) else None) in
  exists w',
    sock_addr_duplist [sa1; sa2] w = Done None w'
    /\ collect released_list (trace w') = [[sa1]].
Proof.
  intros sa1 sa2 w.
  destruct (sock_addr_duplist_failure [sa1; sa2] w)
    as (w' & evs & Hrun & _); [vm_compute; reflexivity|].
  exists w'. split; [exact Hrun|].
  vm_compute in Hrun. injection Hrun as <-. reflexivity.
Defined.

(** ** sock_addr_cmp *)

Lemma Z_of_byte_inj x y : Z_of_byte x = Z_of_byte y -> x = y.
Proof.
  unfold Z_of_byte. intros H. apply N2Z.inj in H.
  pose proof (Byte.of_to_N x) as Hx. pose proof (Byte.of_to_N y) as Hy.
  rewrite H in Hx. congruence.
Qed.

Lemma memcmp_eq n :
  forall a b, List.length a = n -> List.length b = n ->
              (memcmp a b n = 0 <-> a = b).
Proof.
  induction n as [|n IH]; intros [|x a] [|y b] Ha Hb; try discriminate.
  - split; reflexivity.
  - cbn [memcmp]. injection Ha as Ha. injection Hb as Hb.
    destruct (Byte.eqb x y) eqn:E.
    + apply Byte.byte_dec_bl in E. subst y. rewrite (IH a b Ha Hb).
      split; [now intros -> | congruence].
    + split.
      * intros H. assert (x = y) as -> by (apply Z_of_byte_inj; lia).
        rewrite (Byte.byte_dec_lb (eq_refl y)) in E. discriminate E.
      * intros H. injection H as -> _.
        rewrite (Byte.byte_dec_lb (eq_refl y)) in E. discriminate E.
Qed.

(** X9.  On addresses whose [name] holds [namelen] bytes,
    [sock_addr_cmp] returns 0 exactly when the two addresses are equal, and
    1 otherwise; the order of the arguments does not matter. *)
Theorem sock_addr_cmp_decides (sa1 sa2 : sock_addr) :
  namelen sa1 = Z.of_nat (List.length (name sa1)) ->
  namelen sa2 = Z.of_nat (List.length (name sa2)) ->
  (sock_addr_cmp sa1 sa2 = 0 <-> sa1 = sa2)
  /\ (sock_addr_cmp sa1 sa2 = 0 \/ sock_addr_cmp sa1 sa2 = 1)
  /\ sock_addr_cmp sa1 sa2 = sock_addr_cmp sa2 sa1.
Proof.
  destruct sa1 as [f1 t1 n1 l1], sa2 as [f2 t2 n2 l2].
  cbn [namelen name]. intros -> ->.
  assert (forall f1 t1 n1 f2 t2 n2,
            sock_addr_cmp (mk_sock_addr f1 t1 n1 (Z.of_nat (List.length n1)))
              (mk_sock_addr f2 t2 n2 (Z.of_nat (List.length n2))) = 0
            <-> mk_sock_addr f1 t1 n1 (Z.of_nat (List.length n1))
                = mk_sock_addr f2 t2 n2 (Z.of_nat (List.length n2))) as Hiff.
  { clear. intros f1 t1 n1 f2 t2 n2.
    unfold sock_addr_cmp. cbn [ai_family ai_socktype namelen name].
    rewrite Nat2Z.id.
    destruct (Z.eqb_spec f1 f2) as [->|Hf]; cbn [negb orb];
      [|split; [discriminate | congruence]].
    destruct (Z.eqb_spec t1 t2) as [->|Ht]; cbn [negb orb];
      [|split; [discriminate | congruence]].
    destruct (Z.eqb_spec (Z.of_nat (List.length n1)) (Z.of_nat (List.length n2)))
      as [Hl|Hl]; cbn [negb orb].
    2:{ split; [discriminate|]. intros H. injection H as -> . now elim Hl. }
    apply Nat2Z.inj in Hl.
    pose proof (memcmp_eq (List.length n1) n1 n2 eq_refl (eq_sym Hl)) as Hm.
    destruct (Z.eqb_spec (memcmp n1 n2 (List.length n1)) 0) as [E|E];
      cbn [negb].
    - apply Hm in E. subst n2. split; reflexivity.
    - split; [discriminate|]. intros H. injection H as ->.
      elim E. now apply Hm. }
  assert (forall a b, sock_addr_cmp a b = 0 \/ sock_addr_cmp a b = 1) as H01.
  { clear. intros a b. unfold sock_addr_cmp.
    destruct (_ || _); [now right|]. destruct (negb _); [now right | now left]. }
  split; [apply Hiff|]. split; [apply H01|].
  destruct (H01 (mk_sock_addr f1 t1 n1 (Z.of_nat (List.length n1)))
              (mk_sock_addr f2 t2 n2 (Z.of_nat (List.length n2)))) as [E|E];
    destruct (H01 (mk_sock_addr f2 t2 n2 (Z.of_nat (List.length n2)))
                (mk_sock_addr f1 t1 n1 (Z.of_nat (List.length n1)))) as [E'|E'];
    rewrite E, E'; try reflexivity; exfalso.
  - apply Hiff in E. rewrite E in E'. rewrite sock_addr_cmp_refl in E'. lia.
  - apply Hiff in E'. rewrite E' in E. rewrite sock_addr_cmp_refl in E. lia.
Qed.

Lemma sock_addr_cmp_decides_witness :
  let sa1 := mk_sock_addr 2 1 [x7f; x00; x00; x01] 4 in
  let sa2 := mk_sock_addr 2 1 [x7f; x00; x00; x02] 4 in
  sock_addr_cmp sa1 sa2 = 1 /\ sock_addr_cmp sa2 sa1 = 1.
Proof.
  intros sa1 sa2.
  destruct (sock_addr_cmp_decides sa1 sa2 eq_refl eq_refl) as (_ & _ & Hs).
  rewrite <- Hs. split; vm_compute; reflexivity.
Defined.

(** ** deserialize, then serialize *)

Lemma le_value_inj l1 :
  forall l2, List.length l1 = List.length l2 ->
             le_value l1 = le_value l2 -> l1 = l2.
Proof.
  induction l1 as [|x l1 IH]; intros [|y l2] Hl Hv; try discriminate;
    [reflexivity|].
  cbn [le_value] in Hv. injection Hl as Hl.
  pose proof (Z_of_byte_range x). pose proof (Z_of_byte_range y).
  assert (Z_of_byte x = Z_of_byte y) as Hb by lia.
  apply Z_of_byte_inj in Hb. subst y.
  f_equal. apply IH; [exact Hl | lia].
Qed.

Lemma obj_value_inj h l1 l2 :
  List.length l1 = List.length l2 ->
  obj_value h l1 = obj_value h l2 -> l1 = l2.
Proof.
  unfold obj_value. intros Hl Hv. destruct (big_endian h).
  - apply le_value_inj in Hv; [|now rewrite !length_rev].
    rewrite <- (rev_involutive l1), Hv. apply rev_involutive.
  - now apply le_value_inj.
Qed.

(** Bytes read as an unsigned integer and written back are the same
    bytes; so are bytes read as a two's complement integer. *)
Lemma obj_bytes_obj_value h n l :
  List.length l = n -> obj_bytes h n (obj_value h l) = l.
Proof.
  intros <-. apply (obj_value_inj h); [apply length_obj_bytes|].
  rewrite obj_value_obj_bytes. apply Z.mod_small. apply obj_value_range.
Qed.

Lemma obj_bytes_signed h n l :
  List.length l = n -> obj_bytes h n (signed n (obj_value h l)) = l.
Proof.
  intros <-. apply (obj_value_inj h); [apply length_obj_bytes|].
  rewrite obj_value_obj_bytes.
  pose proof (obj_value_range h l) as Hr.
  unfold signed. destruct (_ <? _).
  - now apply Z.mod_small.
  - replace (obj_value h l - modulus (List.length l))
      with (obj_value h l + (-1) * modulus (List.length l)) by lia.
    rewrite Z.mod_add by lia. now apply Z.mod_small.
Qed.

(** X13.  The encoding is canonical: a buffer that [sock_addr_deserialize]
    accepts is returned byte for byte, with its length, by
    [sock_addr_serialize] applied to the decoded address (when the
    allocation of the buffer succeeds). *)
Theorem sock_addr_deserialize_serialize (h : abi) (buf : list byte)
    (sa : sock_addr) (w w1 : world) :
  abi_ok h ->
  sock_addr_deserialize h buf w = Done (Some sa) w1 ->
  is_null (oracle w1 (calls w1)) = false ->
  exists w2,
    sock_addr_serialize h sa w1
    = Done (0, Some buf, Z.of_nat (List.length buf)) w2.
Proof.
  intros Hok Hrun Hall.
  pose proof (header_size_eq h Hok) as Hh.
  pose proof (load_socklen_t_range h
                (skipn (sizeof_int h) (skipn (sizeof_int h) buf))) as Hnl.
  fold (declared_namelen h buf) in Hnl.
  rewrite sock_addr_deserialize_run in Hrun. cbv zeta in Hrun.
  destruct (Z.ltb_spec (Z.of_nat (List.length buf)) (header_size h))
    as [Hlt|Hge]; [discriminate Hrun|].
  destruct (is_null (oracle w (calls w))); [discriminate Hrun|].
  destruct (Z.of_nat (List.length buf)
            =? size_t_wrap h (header_size h + size_t_wrap h (declared_namelen h buf)))
    eqn:Etest; cbn [negb] in Hrun; [|discriminate Hrun].
  destruct (is_null (oracle w (S (calls w)))); [discriminate Hrun|].
  pose proof (length_test_exact h Hok _ _ Hge Hnl Etest) as Hexact.
  injection Hrun as <- <-.
  cbn [oracle calls] in Hall.
  unfold sock_addr_serialize, malloc, bind, fresh, emit, ret.
  cbn [oracle calls trace namelen name ai_family ai_socktype].
  rewrite Hall.
  apply Z.eqb_eq in Etest. rewrite <- Etest.
  eexists. f_equal. f_equal. f_equal. f_equal.
  set (a := sizeof_int h) in *. set (b := sizeof_socklen_t h) in *.
  assert (List.length (firstn a buf) = a) as L1
    by (rewrite length_firstn; lia).
  assert (List.length (firstn a (skipn a buf)) = a) as L2
    by (rewrite length_firstn, length_skipn; lia).
  assert (List.length (firstn b (skipn a (skipn a buf))) = b) as L3
    by (rewrite length_firstn, !length_skipn; lia).
  unfold load_int. fold a.
  rewrite !obj_bytes_signed by assumption.
  unfold declared_namelen at 1, load_socklen_t. fold a b.
  rewrite obj_bytes_obj_value by assumption.
  rewrite firstn_firstn, Nat.min_id.
  rewrite (firstn_all2 (n := Z.to_nat (declared_namelen h buf)))
    by (rewrite !length_skipn; lia).
  now rewrite !firstn_skipn.
Qed.

Lemma sock_addr_deserialize_serialize_witness :
  let buf := [x02; x00; x00; x00; x01; x00; x00; x00; x02; x00; x00; x00;
              x1f; x90] in
  let w := mk_world [] 0 (fun n => Some (N.of_nat n)) in
  exists sa w1 w2,
    sock_addr_deserialize lp64 buf w = Done (Some sa) w1
    /\ sock_addr_serialize lp64 sa w1 = Done (0, Some buf, 14) w2.
Proof.
  intros buf w.
  destruct (sock_addr_deserialize lp64 buf w) as [[sa|] w1|w1] eqn:E;
    try (vm_compute in E; discriminate E).
  assert (is_null (oracle w1 (calls w1)) = false) as Hn.
  { pose proof E as E'. vm_compute in E'. injection E' as _ <-. reflexivity. }
  destruct (sock_addr_deserialize_serialize lp64 buf sa w w1 abi_ok_lp64 E Hn)
    as (w2 & H).
  exists sa, w1, w2. split; [reflexivity | exact H].
Defined.

(** ** sock_addr_serialize is injective *)

Lemma app_inv_length {A} (a : list A) :
  forall a' b b', List.length a = List.length a' ->
                  a ++ b = a' ++ b' -> a = a' /\ b = b'.
Proof.
  induction a as [|x a IH]; intros [|y a'] b b' Hl H; try discriminate.
  - now split.
  - injection Hl as Hl. injection H as -> H.
    destruct (IH a' b b' Hl H) as [-> ->]. now split.
Qed.

Lemma obj_bytes_int_inj h x y :
  (0 < sizeof_int h)%nat ->
  - (modulus (sizeof_int h) / 2) <= x < modulus (sizeof_int h) / 2 ->
  - (modulus (sizeof_int h) / 2) <= y < modulus (sizeof_int h) / 2 ->
  obj_bytes h (sizeof_int h) x = obj_bytes h (sizeof_int h) y -> x = y.
Proof.
  intros Hn Hx Hy H. apply (f_equal (obj_value h)) in H.
  rewrite !obj_value_obj_bytes in H.
  rewrite <- (signed_mod _ x Hn Hx), <- (signed_mod _ y Hn Hy). now rewrite H.
Qed.

(** X14.  [sock_addr_serialize] is injective on valid addresses: two valid
    addresses that serialize to the same bytes are equal. *)
Theorem sock_addr_serialize_injective (h : abi) (sa1 sa2 : sock_addr)
    (w1 w2 w1' w2' : world) (buf : list byte) (len1 len2 : Z) :
  abi_ok h ->
  valid_sock_addr h sa1 -> valid_sock_addr h sa2 ->
  sock_addr_serialize h sa1 w1 = Done (0, Some buf, len1) w1' ->
  sock_addr_serialize h sa2 w2 = Done (0, Some buf, len2) w2' ->
  sa1 = sa2.
Proof.
  intros (Hi & Hs & Hle & Hhdr) (Hf1 & Ht1 & Hn1 & Hl1 & _)
    (Hf2 & Ht2 & Hn2 & Hl2 & _).
  unfold sock_addr_serialize, malloc, bind, fresh, emit, ret.
  destruct (is_null (oracle w1 (calls w1))); [discriminate|].
  destruct (is_null (oracle w2 (calls w2))); [discriminate|].
  intros H1 H2. injection H1 as H1 _ _. injection H2 as H2 _ _.
  rewrite <- H2 in H1. clear H2.
  apply app_inv_length in H1; [|now rewrite !length_obj_bytes].
  destruct H1 as [Hf H1].
  apply app_inv_length in H1; [|now rewrite !length_obj_bytes].
  destruct H1 as [Ht H1].
  apply app_inv_length in H1; [|now rewrite !length_obj_bytes].
  destruct H1 as [Hn Hname].
  apply obj_bytes_int_inj in Hf; [|assumption..].
  apply obj_bytes_int_inj in Ht; [|assumption..].
  apply (f_equal (obj_value h)) in Hn. rewrite !obj_value_obj_bytes in Hn.
  rewrite !Z.mod_small in Hn by assumption.
  destruct sa1 as [f1 t1 n1 l1], sa2 as [f2 t2 n2 l2].
  cbn [ai_family ai_socktype namelen name] in *. subst.
  rewrite !Nat2Z.id, !firstn_all in Hname. subst n2. reflexivity.
Qed.

Lemma sock_addr_serialize_injective_witness :
  let sa := mk_sock_addr 2 1 [x1f; x90] 2 in
  let w1 := mk_world [] 0 (fun n => Some (N.of_nat n)) in
  let w2 := mk_world [Ev_close 3] 5 (fun n => Some 9%N) in
  exists buf,
    fst (fst (match sock_addr_serialize lp64 sa w1 with
              | Done r _ => r | Aborted _ => (-1, None, 0) end)) = 0
    /\ snd (fst (match sock_addr_serialize lp64 sa w2 with
                 | Done r _ => r | Aborted _ => (-1, None, 0) end)) = Some buf
    /\ sa = sa.
Proof.
  intros sa w1 w2.
  destruct (sock_addr_serialize lp64 sa w1) as [[[rc1 b1] n1] w1'|w1'] eqn:E1;
    [|vm_compute in E1; discriminate E1].
  destruct (sock_addr_serialize lp64 sa w2) as [[[rc2 b2] n2] w2'|w2'] eqn:E2;
    [|vm_compute in E2; discriminate E2].
  assert (rc1 = 0 /\ rc2 = 0 /\ b1 = b2 /\ exists buf, b2 = Some buf)
    as (-> & -> & -> & buf & ->).
  { vm_compute in E1, E2. injection E1 as <- <- _ _. injection E2 as <- <- _ _.
    repeat split. eexists. reflexivity. }
  exists buf. cbn [fst snd]. split; [reflexivity|]. split; [reflexivity|].
  apply (sock_addr_serialize_injective lp64 sa sa w1 w2 w1' w2' buf n1 n2
           abi_ok_lp64).
  - unfold valid_sock_addr, modulus. cbn. lia.
  - unfold valid_sock_addr, modulus. cbn. lia.
  - exact E1.
  - exact E2.
Defined.

(** ** sock_addr_deserialize leaves nothing allocated when it fails *)

(** X15.  [sock_addr_deserialize] leaks nothing: whenever it returns NULL,
    every block it allocated has been freed again; when it succeeds it has
    allocated the structure and the name and freed nothing. *)
Theorem sock_addr_deserialize_balance (h : abi) (buf : list byte) (w : world) :
  exists r w' evs,
    sock_addr_deserialize h buf w = Done r w'
    /\ trace w' = trace w ++ evs
    /\ match r with
       | Some sa =>
         List.length (collect (allocated OBJ_sock_addr) evs) = 1%nat
         /\ List.length (collect (allocated OBJ_name) evs) = 1%nat
         /\ (forall what, collect (freed what) evs = [])
       | None =>
         forall what,
           List.length (collect (allocated what) evs)
           = List.length (collect (freed what) evs)
       end.
Proof.
  rewrite sock_addr_deserialize_run. cbv zeta.
  destruct (_ <? _).
  { exists None, w, []. rewrite app_nil_r. repeat split. }
  destruct (oracle w (calls w)) as [p|]; cbn [is_null].
  2:{ eexists. eexists. eexists. split; [reflexivity|]. cbn [trace].
      split; [reflexivity|]. intros []; reflexivity. }
  destruct (negb _).
  { eexists. eexists. eexists. split; [reflexivity|]. cbn [trace].
    split; [reflexivity|]. intros []; reflexivity. }
  destruct (oracle w (S (calls w))) as [q|]; cbn [is_null].
  - eexists. eexists. eexists. split; [reflexivity|]. cbn [trace].
    split; [reflexivity|]. repeat split.
  - eexists. eexists. eexists. split; [reflexivity|]. cbn [trace].
    split; [reflexivity|]. intros []; reflexivity.
Qed.

(** ** sock_addr_ensure_port *)

Open Scope string_scope.

Lemma strrchr_bound str ch i :
  strrchr str ch = Some i -> (i < String.length str)%nat.
Proof.
  revert i. induction str as [|x r IH]; intros i H; cbn in *; [discriminate|].
  destruct (strrchr r ch) as [j|].
  - injection H as <-. specialize (IH j eq_refl). lia.
  - destruct (Ascii.eqb x ch); [|discriminate]. injection H as <-. lia.
Qed.

Lemma strrchr_none str ch : strrchr str ch = None <-> strchr str ch = None.
Proof.
  induction str as [|x r IH]; cbn; [tauto|].
  destruct (strrchr r ch), (strchr r ch), (Ascii.eqb x ch); cbn;
    split; intros H; try discriminate; try reflexivity;
    try (apply IH in H; discriminate);
    try (destruct IH as [IH1 IH2]; first [specialize (IH1 eq_refl) | specialize (IH2 eq_refl)]; discriminate).
Qed.

Lemma strchr_app s1 s2 ch :
  strchr (s1 ++ s2) ch
  = match strchr s1 ch with
    | Some i => Some i
    | None => option_map (Nat.add (String.length s1)) (strchr s2 ch)
    end.
Proof.
  induction s1 as [|x r IH]; cbn.
  - destruct (strchr s2 ch); reflexivity.
  - destruct (Ascii.eqb x ch); [reflexivity|].
    rewrite IH. destruct (strchr r ch); [reflexivity|].
    destruct (strchr s2 ch); reflexivity.
Qed.

Lemma strrchr_app s1 s2 ch :
  strrchr (s1 ++ s2) ch
  = match strrchr s2 ch with
    | Some j => Some (String.length s1 + j)%nat
    | None => strrchr s1 ch
    end.
Proof.
  induction s1 as [|x r IH]; cbn.
  - destruct (strrchr s2 ch); reflexivity.
  - rewrite IH. destruct (strrchr s2 ch); reflexivity.
Qed.

Lemma get_none str n : String.get n str = None <-> (String.length str <= n)%nat.
Proof.
  revert n. induction str as [|x r IH]; intros n; cbn.
  - split; [lia | reflexivity].
  - destruct n as [|n]; [split; [discriminate | lia]|].
    rewrite IH. lia.
Qed.

Lemma at_end_iff str n : at_end str n = true <-> (String.length str <= n)%nat.
Proof.
  unfold at_end. rewrite <- get_none.
  destruct (String.get n str); split; congruence.
Qed.

Lemma length_append s1 s2 :
  String.length (s1 ++ s2) = (String.length s1 + String.length s2)%nat.
Proof. induction s1 as [|x r IH]; cbn; [|rewrite IH]; reflexivity. Qed.

Lemma ensure_verbatim x w :
  verbatim x = true -> sock_addr_ensure_port x w = copy_of x w.
Proof.
  unfold verbatim, sock_addr_ensure_port. intros H.
  destruct (char_is x 0 "/"); [reflexivity|]. cbn [orb] in H.
  destruct (is_none (strchr x ":")); [discriminate|]. cbn [negb andb] in H.
  destruct (ptr_eqb (strchr x ":") (strrchr x ":")); [reflexivity|].
  cbn [orb] in H.
  destruct (strrchr x "]") as [ic|]; [|discriminate].
  destruct (at_end x (S ic)); [discriminate | reflexivity].
Qed.

Lemma not_at_end str n : (n < String.length str)%nat -> at_end str n = false.
Proof.
  intros H. destruct (at_end str n) eqn:E; [|reflexivity].
  apply at_end_iff in E. lia.
Qed.

(** Appending ":0" to an address without a colon. *)
Lemma verbatim_ipv4_port x :
  strchr x ":" = None -> verbatim (x ++ ":0") = true.
Proof.
  intros Hx. unfold verbatim.
  rewrite strchr_app, Hx, strrchr_app. cbn.
  rewrite Nat.eqb_refl. cbn. apply orb_true_r.
Qed.

(** Wrapping an address with two colons and no bracket in "[" and "]:0". *)
Lemma verbatim_ipv6_wrapped x i :
  strchr x ":" = Some i -> strrchr x "]" = None ->
  verbatim ("[" ++ x ++ "]:0") = true.
Proof.
  intros Hx Hc. unfold verbatim.
  change ("[" ++ x ++ "]:0") with (String "[" (x ++ "]:0")).
  cbn [strchr strrchr char_is String.get].
  rewrite strchr_app, Hx, !strrchr_app. cbn.
  rewrite not_at_end; [now rewrite orb_true_r|].
  cbn. rewrite length_append. cbn. lia.
Qed.

(** Appending ":0" to an address that ends in its last bracket. *)
Lemma verbatim_ipv6_port x i ic :
  strchr x ":" = Some i -> strrchr x "]" = Some ic ->
  verbatim (x ++ ":0") = true.
Proof.
  intros Hx Hc. unfold verbatim.
  rewrite strchr_app, Hx, !strrchr_app. cbn. rewrite Hc.
  apply strrchr_bound in Hc.
  rewrite not_at_end; [now rewrite !orb_true_r|].
  rewrite length_append. cbn. lia.
Qed.

Lemma ensure_result x y w w' :
  sock_addr_ensure_port x w = Done (Some y) w' -> verbatim y = true.
Proof.
  unfold sock_addr_ensure_port, strdup, asprintf, malloc, warnp, bind, fresh,
    emit, ret.
  destruct (char_is x 0 "/") eqn:E0.
  { destruct (oracle w (calls w)); cbn; intros H; [|discriminate].
    injection H as <- _. unfold verbatim. now rewrite E0. }
  destruct (strchr x ":") as [i|] eqn:Ea; cbn [is_none].
  2:{ destruct (oracle w (calls w)); cbn; intros H; [|discriminate].
      injection H as <- _. now apply verbatim_ipv4_port. }
  destruct (ptr_eqb (Some i) (strrchr x ":")) eqn:Eab.
  { destruct (oracle w (calls w)); cbn; intros H; [|discriminate].
    injection H as <- _. unfold verbatim. rewrite Ea, Eab. cbn.
    apply orb_true_r. }
  destruct (strrchr x "]") as [ic|] eqn:Ec.
  2:{ destruct (oracle w (calls w)); cbn; intros H; [|discriminate].
      injection H as <- _. now apply verbatim_ipv6_wrapped with (i := i). }
  destruct (at_end x (S ic)) eqn:Eend.
  - destruct (oracle w (calls w)); cbn; intros H; [|discriminate].
    injection H as <- _. now apply verbatim_ipv6_port with (i := i) (ic := ic).
  - destruct (oracle w (calls w)); cbn; intros H; [|discriminate].
    injection H as <- _. unfold verbatim. rewrite Ea, Eab, Ec, Eend. cbn.
    apply orb_true_r.
Qed.

Lemma has_port_verbatim x : has_port x -> verbatim x = true.
Proof.
  intros [p | host p Hh Hp | hh p Hp]; unfold verbatim.
  - reflexivity.
  - rewrite strchr_app, Hh, strrchr_app. cbn.
    apply strrchr_none in Hp. rewrite Hp. cbn.
    rewrite Nat.eqb_refl. cbn. apply orb_true_r.
  - change ("[" ++ hh ++ "]:" ++ p) with (String "[" (hh ++ "]:" ++ p)).
    cbn [strchr strrchr char_is String.get].
    rewrite strchr_app, !strrchr_app. cbn.
    apply strrchr_none in Hp. rewrite Hp. cbn.
    rewrite not_at_end.
    + destruct (strchr hh ":"); cbn; now rewrite orb_true_r.
    + cbn. rewrite length_append. cbn. lia.
Qed.

(** C8.  If [sock_addr_ensure_port] succeeds on [x] with result [y], then
    applied to [y], in any world, it returns a copy of [y] itself (or NULL
    when the copy cannot be allocated); and applied to an address that
    already contains a port (a UNIX path [/p], IPv4 [host:p], IPv6
    [[h]:p]) it returns a copy of that address. *)
Theorem sock_addr_ensure_port_idempotent :
  (forall x y w w',
      sock_addr_ensure_port x w = Done (Some y) w' ->
      forall w2, sock_addr_ensure_port y w2 = copy_of y w2)
  /\ (forall x w, has_port x -> sock_addr_ensure_port x w = copy_of x w).
Proof.
  split.
  - intros x y w w' H w2. apply ensure_verbatim.
    now apply ensure_result in H.
  - intros x w H. apply ensure_verbatim. now apply has_port_verbatim.
Qed.

(** A bare IPv6 address gets its brackets and port once, and an address
    with a port is left alone. *)
Lemma sock_addr_ensure_port_idempotent_witness :
  let w := mk_world [] 0 (fun n => Some (N.of_nat n)) in
  sock_addr_ensure_port "::1" w
  = Done (Some "[::1]:0")
      (mk_world [Ev_malloc OBJ_string (Some 0%N)] 1 (fun n => Some (N.of_nat n)))
  /\ sock_addr_ensure_port "[::1]:0" w = copy_of "[::1]:0" w
  /\ sock_addr_ensure_port "10.0.0.1:8080" w = copy_of "10.0.0.1:8080" w.
Proof.
  intros w. split; [reflexivity|]. split.
  - apply (proj1 sock_addr_ensure_port_idempotent "::1" "[::1]:0" w
             (mk_world [Ev_malloc OBJ_string (Some 0%N)] 1
                (fun n => Some (N.of_nat n)))).
    reflexivity.
  - apply (proj2 sock_addr_ensure_port_idempotent "10.0.0.1:8080" w).
    apply (port_ipv4 "10.0.0.1" "8080"); reflexivity.
Defined.

(** The branches of [sock_addr_ensure_port], one input each. *)
Example sock_addr_ensure_port_table :
  let w := mk_world [] 0 (fun n => Some (N.of_nat n)) in
  let result x :=
    match sock_addr_ensure_port x w with
    | Done r _ => r
    | Aborted _ => None
    end in
  map result ["/var/run/sock"; "localhost"; "1.2.3.4:80"; "::1"; "[::1]";
              "[::1]:22"; ""]
  = [Some "/var/run/sock"; Some "localhost:0"; Some "1.2.3.4:80";
     Some "[::1]:0"; Some "[::1]:0"; Some "[::1]:22"; Some ":0"].
Proof. reflexivity. Qed.

(** Out of memory: the formatted address cannot be allocated. *)
Example sock_addr_ensure_port_no_memory :
  sock_addr_ensure_port "localhost" (mk_world [] 0 (fun _ => None))
  = Done None
      (mk_world [Ev_malloc OBJ_string None; Ev_warnp "asprintf"] 1
         (fun _ => None)).
Proof. reflexivity. Qed.

(** ** What sock_addr_ensure_port returns *)

Ltac ensure_case :=
  match goal with |- context [oracle ?w (calls ?w)] =>
    destruct (oracle w (calls w)) end;
  cbn [is_null negb trace calls oracle];
  let H := fresh "H" in let Hres := fresh "Hres" in
  let y := fresh "y" in let Hy := fresh "Hy" in
  intros H Hres; injection H as <- <-; rewrite <- ?app_assoc;
  (split; [reflexivity|]); (split; [split; congruence|]);
  intros y Hy; try discriminate Hy;
  (split; [now apply Hres|]); injection Hy as <-;
  intuition congruence.

(** X16.  [sock_addr_ensure_port] makes exactly one allocation and returns
    NULL exactly when it fails, warning only if the failed allocation was
    an [asprintf].  A result is the address itself if it is of a form the
    function leaves alone; otherwise the address followed by [:0], except
    that an address with a colon and no closing bracket is wrapped as
    [[addr]:0].  Every result is of a form the function leaves alone. *)
Theorem sock_addr_ensure_port_result (x : string) (w : world) :
  exists r,
    sock_addr_ensure_port x w
    = Done r
        (mk_world
           (trace w
            ++ Ev_malloc OBJ_string (oracle w (calls w))
               :: (if is_null (oracle w (calls w)) && negb (verbatim x)
                   then [Ev_warnp "asprintf"] else []))
           (S (calls w)) (oracle w))
    /\ (r = None <-> oracle w (calls w) = None)
    /\ (forall y, r = Some y ->
        verbatim y = true
        /\ (verbatim x = true -> y = x)
        /\ (verbatim x = false ->
            strchr x ":" = None \/ strrchr x "]" <> None -> y = x ++ ":0")
        /\ (verbatim x = false ->
            strchr x ":" <> None -> strrchr x "]" = None ->
            y = "[" ++ x ++ "]:0")).
Proof.
  destruct (sock_addr_ensure_port x w) as [r w'|w'] eqn:Hrun.
  2:{ exfalso. revert Hrun.
      unfold sock_addr_ensure_port, strdup, asprintf, malloc, warnp, bind,
        fresh, emit, ret.
      repeat match goal with
             | |- context [if ?c then _ else _] => destruct c
             | |- context [match ?c with Some _ => _ | None => _ end] =>
               destruct c
             end; discriminate. }
  exists r.
  assert (forall y, r = Some y -> verbatim y = true) as Hres.
  { intros y ->. now apply ensure_result in Hrun. }
  assert (forall b, is_null (oracle w (calls w)) && b
                    = match oracle w (calls w) with
                      | None => b | Some _ => false end) as Hnull
    by (intros b; destruct (oracle w (calls w)); reflexivity).
  rewrite Hnull. clear Hnull.
  revert Hrun Hres.
  unfold sock_addr_ensure_port, strdup, asprintf, malloc, warnp, bind, fresh,
    emit, ret.
  destruct (char_is x 0 "/") eqn:E0.
  { assert (verbatim x = true) as -> by (unfold verbatim; now rewrite E0).
    ensure_case. }
  destruct (strchr x ":") as [i|] eqn:Ea; cbn [is_none].
  2:{ assert (verbatim x = false) as ->
        by (unfold verbatim; now rewrite E0, Ea).
      ensure_case. }
  destruct (ptr_eqb (Some i) (strrchr x ":")) eqn:Eab.
  { assert (verbatim x = true) as ->
      by (unfold verbatim; rewrite E0, Ea, Eab; reflexivity).
    ensure_case. }
  destruct (strrchr x "]") as [ic|] eqn:Ec.
  2:{ assert (verbatim x = false) as ->
        by (unfold verbatim; rewrite E0, Ea, Eab, Ec; reflexivity).
      ensure_case. }
  destruct (at_end x (S ic)) eqn:Eend.
  - assert (verbatim x = false) as ->
      by (unfold verbatim; rewrite E0, Ea, Eab, Ec, Eend; reflexivity).
    ensure_case.
  - assert (verbatim x = true) as ->
      by (unfold verbatim; rewrite E0, Ea, Eab, Ec, Eend; reflexivity).
    ensure_case.
Qed.
